(** * PopupHandler: launching and monitoring the popup window

    A shallow embedding of
    [lib/msal-browser/src/interaction_handler/PopupHandler.ts]:
    [initiateAuthRequest] (opening the popup) and [monitorPopupForHash]
    (the polling loop that waits for a known hash, a closed window or the
    timeout).

    JavaScript numbers are modelled by exact arithmetic: the timeout and the
    tick budget are rationals ([Q]), the tick counter is a natural number.
    The event loop is explicit: a session is advanced by a list of events
    (a poll interval elapses, the same-origin gate settles), and the code's
    calls on its collaborators are recorded in a trace, in program order. *)

From Stdlib Require Import QArith Qround ZArith Lia List Bool.
From stdpp Require Import base option list gmap strings.
Import ListNotations.

Local Open Scope string_scope.
Local Open Scope list_scope.

(** ** Errors, windows, observations *)

(** The [BrowserAuthError]s this file creates. *)
Inductive BrowserAuthError : Type :=
| EmptyNavigationUriError
| UserCancelledError
| MonitorPopupTimeoutError.

(** A [Window] is a handle: the index of the popup in the browser's list. *)
Definition Window : Type := nat.

(** What one poll can see of the popup: [popupWindow.closed] is always
    readable, [popupWindow.location.hash] throws while the popup is on
    another origin ([None]). *)
Record Surface : Type := mkSurface {
  closed : bool;
  location_hash : option string
}.

(** ** The monitoring session *)

Inductive TimerState : Type :=
| TimerUnset      (* setInterval not called yet *)
| TimerActive     (* interval running *)
| TimerCleared.   (* clearInterval called *)

Inductive PromiseState : Type :=
| Pending
| Fulfilled (contentHash : string)
| Rejected (e : BrowserAuthError).

Inductive GateState : Type :=
| GatePending
| GateFulfilled
| GateRejected.

(** Calls made by the code, in program order. *)
Inductive Effect : Type :=
| LogWarning
| SetInterval
| ReadClosed
| ReadHash
| Thrown                          (* uncaught exception in the callback *)
| CleanPopup (w : option Window)
| ClearInterval
| Resolve (contentHash : string)
| Reject (e : BrowserAuthError).

Record Session : Type := mkSession {
  ticks : nat;                 (* let ticks = 0 *)
  gate : GateState;            (* promise of monitorPopupForSameOrigin *)
  timer : TimerState;          (* intervalId *)
  promise : PromiseState;      (* the promise monitorPopupForHash returns *)
  popupClosed : bool;          (* is the popup closed by now *)
  closeCalls : nat;            (* how often cleanup called popup.close() *)
  trace : list Effect          (* oldest first *)
}.

Definition set_ticks (n : nat) (s : Session) : Session :=
  mkSession n (gate s) (timer s) (promise s) (popupClosed s) (closeCalls s) (trace s).
Definition set_gate (g : GateState) (s : Session) : Session :=
  mkSession (ticks s) g (timer s) (promise s) (popupClosed s) (closeCalls s) (trace s).
Definition set_timer (t : TimerState) (s : Session) : Session :=
  mkSession (ticks s) (gate s) t (promise s) (popupClosed s) (closeCalls s) (trace s).
Definition set_promise (p : PromiseState) (s : Session) : Session :=
  mkSession (ticks s) (gate s) (timer s) p (popupClosed s) (closeCalls s) (trace s).
Definition set_popup (c : bool) (n : nat) (s : Session) : Session :=
  mkSession (ticks s) (gate s) (timer s) (promise s) c n (trace s).
Definition emit (e : Effect) (s : Session) : Session :=
  mkSession (ticks s) (gate s) (timer s) (promise s) (popupClosed s) (closeCalls s)
            (trace s ++ [e]).

(** ** A state monad with uncaught exceptions

    A callback either runs to its end ([Some]) or is cut short by an
    exception ([None]); what it did to the session before stays done. *)
Module Callback.

Definition M (A : Type) : Type := Session -> Session * option A.

Definition ret {A} (a : A) : M A := fun s => (s, Some a).

Definition bind {A B} (m : M A) (k : A -> M B) : M B :=
  fun s => match m s with
           | (s', Some a) => k a s'
           | (s', None) => (s', None)
           end.

Definition throw {A} : M A := fun s => (emit Thrown s, None).

Definition modify (f : Session -> Session) : M unit := fun s => (f s, Some tt).

Definition gets {A} (f : Session -> A) : M A := fun s => (s, Some (f s)).

Definition exec {A} (m : M A) (s : Session) : Session := fst (m s).

End Callback.
Import Callback.

Declare Scope callback_scope.
Delimit Scope callback_scope with callback.
Bind Scope callback_scope with M.
Notation "x ← y ; z" := (bind y (fun x => z))
  (at level 20, y at level 100, z at level 200, only parsing) : callback_scope.
Notation "y ;; z" := (bind y (fun _ => z))
  (at level 100, z at level 200, only parsing, right associativity) : callback_scope.
Local Open Scope callback_scope.

(** [popupWindow.closed] *)
Definition readClosed (w : Surface) : M bool :=
  modify (emit ReadClosed) ;; ret (closed w).

(** [popupWindow.location.hash]: throws on a cross-origin popup. *)
Definition readHash (w : Surface) : M string :=
  modify (emit ReadHash) ;;
  match location_hash w with
  | Some h => ret h
  | None => throw
  end.

(** [ticks++] *)
Definition incrTicks : M unit := modify (fun s => set_ticks (S (ticks s)) s).

(** [clearInterval(intervalId)] *)
Definition clearInterval : M unit :=
  modify (fun s => set_timer TimerCleared (emit ClearInterval s)).

(** A promise settles once: [resolve] and [reject] on a settled promise
    change nothing, the call is still recorded. *)
Definition settle (p : PromiseState) (s : Session) : Session :=
  match promise s with
  | Pending => set_promise p s
  | _ => s
  end.

Definition resolve (contentHash : string) : M unit :=
  modify (fun s => settle (Fulfilled contentHash) (emit (Resolve contentHash) s)).

Definition reject (e : BrowserAuthError) : M unit :=
  modify (fun s => settle (Rejected e) (emit (Reject e) s)).

(** Modelled from the spec: [PopupUtils.cleanPopup] is not among the sources.
    The spec's Cleanup closes the surface when a handle is supplied and the
    surface is not closed already, and tolerates redundant calls. The
    interval handle is local to [monitorPopupForHash], which clears it
    itself. *)
Definition cleanPopup (w : option Window) : M unit :=
  modify (fun s =>
    let s' := emit (CleanPopup w) s in
    match w with
    | Some _ => if popupClosed s' then s'
                else set_popup true (S (closeCalls s')) s'
    | None => s'
    end).

(** [ticks > maxTicks], on exact numbers. *)
Definition ticks_gt (n : nat) (maxTicks : Q) : bool :=
  negb (Qle_bool (inject_Z (Z.of_nat n)) maxTicks).
Arguments ticks_gt : simpl never.

Section PopupHandler.

(** Constants and helpers of other modules. *)
Variable POLL_INTERVAL_MS : Q.             (* BrowserConstants *)
Variable DEFAULT_POPUP_TIMEOUT_MS : Q.     (* Configuration *)
Variable hashContainsKnownProperties : string -> bool.   (* UrlString *)

(** [const maxTicks = timeout / BrowserConstants.POLL_INTERVAL_MS]: the
    quotient is kept as it is, not rounded. The interval is a positive number
    of milliseconds; what is proved of the budget assumes so, since a division
    by zero is not the same in [Q] and in JavaScript. *)
Definition maxTicksOf (timeout : Q) : Q := (timeout / POLL_INTERVAL_MS)%Q.

(** The body of the [setInterval] callback. *)
Definition onTick (popupWindow : Window) (maxTicks : Q) (w : Surface) : M unit :=
  isClosed ← readClosed w ;
  if isClosed then
    (* Window is closed *)
    cleanPopup None ;;
    clearInterval ;;
    reject UserCancelledError
  else
    (* Only run clock when we are on same domain *)
    incrTicks ;;
    contentHash ← readHash w ;
    if hashContainsKnownProperties contentHash then
      (* Success case *)
      cleanPopup (Some popupWindow) ;;
      clearInterval ;;
      resolve contentHash
    else
      n ← gets ticks ;
      if ticks_gt n maxTicks then
        (* Timeout error *)
        cleanPopup (Some popupWindow) ;;
        clearInterval ;;
        reject MonitorPopupTimeoutError
      else ret tt.

(** What happens to a session. *)
Inductive Event : Type :=
| GateResolves                 (* monitorPopupForSameOrigin fulfils *)
| GateRejects                  (* monitorPopupForSameOrigin rejects *)
| PollElapsed (w : Surface).   (* POLL_INTERVAL_MS went by; the popup is [w] *)

(** The popup as the environment shows it at a poll. *)
Definition observe (w : Surface) (s : Session) : Session :=
  set_popup (popupClosed s || closed w) (closeCalls s) s.

(** [.then(() => { const intervalId = setInterval(...) })]: there is no
    rejection handler. *)
Definition step (popupWindow : Window) (maxTicks : Q) (s : Session) (ev : Event)
  : Session :=
  match ev with
  | GateResolves =>
      match gate s with
      | GatePending => set_timer TimerActive (emit SetInterval (set_gate GateFulfilled s))
      | _ => s
      end
  | GateRejects =>
      match gate s with
      | GatePending => set_gate GateRejected s
      | _ => s
      end
  | PollElapsed w =>
      let s' := observe w s in
      match timer s' with
      | TimerActive => exec (onTick popupWindow maxTicks w) s'
      | _ => s'
      end
  end.

(** The promise executor up to the call of [monitorPopupForSameOrigin]. *)
Definition executor (timeout : Q) : Session :=
  let s0 := mkSession 0 GatePending TimerUnset Pending false 0 [] in
  if negb (Qle_bool DEFAULT_POPUP_TIMEOUT_MS timeout) then emit LogWarning s0 else s0.

(** The session of [monitorPopupForHash(popupWindow, timeout)] after the
    events [evs]. *)
Definition monitorPopupForHash (popupWindow : Window) (timeout : Q)
           (evs : list Event) : Session :=
  fold_left (step popupWindow (maxTicksOf timeout)) evs (executor timeout).

End PopupHandler.

(** ** The launcher *)

(** A popup as the browser holds it. *)
Record Popup : Type := mkPopup {
  name : string;
  href : string
}.

(** [PopupParams]: [popup?: Window|null] and [popupName: string]. *)
Record PopupParams : Type := mkPopupParams {
  popup : option Window;
  popupName : string
}.

(** Calls of [initiateAuthRequest] on its collaborators, in program order. *)
Inductive Call : Type :=
| SetTemporaryCache (key value : string) (generateKey : bool)
| InfoPii (msg : string)
| LogError (msg : string)
| OpenPopup (urlNavigate popupName : string) (popup : option Window).

Record Browser : Type := mkBrowser {
  temporaryCache : gmap string string;   (* this.browserStorage *)
  popups : list Popup;                   (* the windows, by handle *)
  logger : list string;                  (* this.authModule.logger *)
  history : list Call                    (* oldest first *)
}.

Definition record (c : Call) (b : Browser) : Browser :=
  mkBrowser (temporaryCache b) (popups b) (logger b) (history b ++ [c]).

Definition log (msg : string) (b : Browser) : Browser :=
  mkBrowser (temporaryCache b) (popups b) (logger b ++ [msg]) (history b).

Definition infoPii (msg : string) (b : Browser) : Browser :=
  log msg (record (InfoPii msg) b).

Definition logError (msg : string) (b : Browser) : Browser :=
  log msg (record (LogError msg) b).

Section Launcher.

Variable isEmpty : string -> bool.                   (* StringUtils *)
Variable generateCacheKey : string -> string.        (* BrowserCacheManager *)
Variable INTERACTION_STATUS_KEY : string.            (* TemporaryCacheKeys *)
Variable INTERACTION_IN_PROGRESS_VALUE : string.     (* BrowserConstants *)

(** Modelled from the spec: [BrowserCacheManager.setTemporaryCache] is not
    among the sources. It stores the value, under the generated key when
    [generateKey] is set; the spec calls the entry written here the global
    interaction flag. *)
Definition setTemporaryCache (key value : string) (generateKey : bool)
           (b : Browser) : Browser :=
  let k := if generateKey then generateCacheKey key else key in
  let b' := record (SetTemporaryCache key value generateKey) b in
  mkBrowser (<[k := value]> (temporaryCache b')) (popups b') (logger b') (history b').

(** Modelled from the spec: [PopupUtils.openPopup] is not among the
    sources. It opens a surface navigated to the url under the given name,
    or navigates the existing surface when one is supplied, and returns the
    handle. *)
Definition openPopup (urlNavigate popupName : string) (popup : option Window)
           (b : Browser) : Browser * Window :=
  let b' := record (OpenPopup urlNavigate popupName popup) b in
  match popup with
  | Some w =>
      (mkBrowser (temporaryCache b')
                 (alter (fun p => mkPopup (name p) urlNavigate) w (popups b'))
                 (logger b') (history b'), w)
  | None =>
      (mkBrowser (temporaryCache b')
                 (popups b' ++ [mkPopup popupName urlNavigate])
                 (logger b') (history b'), length (popups b'))
  end.

(** [initiateAuthRequest(requestUrl, params)]: the browser afterwards and
    either the thrown error or the returned window. *)
Definition initiateAuthRequest (requestUrl : string) (params : PopupParams)
           (b : Browser) : Browser * (BrowserAuthError + Window) :=
  (* Check that request url is not empty. *)
  if negb (isEmpty requestUrl) then
    (* Set interaction status in the library. *)
    let b1 := setTemporaryCache INTERACTION_STATUS_KEY
                                INTERACTION_IN_PROGRESS_VALUE true b in
    let b2 := infoPii ("Navigate to:" ++ requestUrl) b1 in
    (* Open the popup window to requestUrl. *)
    let '(b3, w) := openPopup requestUrl (popupName params) (popup params) b2 in
    (b3, inr w)
  else
    (* Throw error if request URL is empty. *)
    let b1 := logError "Navigate url is empty" b in
    (b1, inl EmptyNavigationUriError).

(** The interaction flag as a reader of the cache sees it. *)
Definition interactionStatus (b : Browser) : option string :=
  temporaryCache b !! generateCacheKey INTERACTION_STATUS_KEY.

End Launcher.

(** ** Surfaces over time *)

(** Modelled from the spec: [PopupUtils.monitorPopupForSameOrigin] is not
    among the sources. The spec's gate waits, for as long as it takes, until
    the surface's location is readable. Here the surface is given by what
    each poll finds; the gate resolves at the first poll that can read the
    location, and the interval set up then fires from the next poll on. *)
Fixpoint sameOriginGate (waiting : bool) (ws : list Surface) : list Event :=
  match ws with
  | [] => []
  | w :: ws' =>
      match waiting, location_hash w with
      | true, Some _ => PollElapsed w :: GateResolves :: sameOriginGate false ws'
      | _, _ => PollElapsed w :: sameOriginGate waiting ws'
      end
  end.

(** [monitorPopupForHash] on a surface seen poll by poll, behind that gate. *)
Definition monitorSurface (POLL_INTERVAL_MS DEFAULT_POPUP_TIMEOUT_MS : Q)
           (hashContainsKnownProperties : string -> bool)
           (popupWindow : Window) (timeout : Q) (ws : list Surface) : Session :=
  monitorPopupForHash POLL_INTERVAL_MS DEFAULT_POPUP_TIMEOUT_MS
    hashContainsKnownProperties popupWindow timeout
    (sameOriginGate true ws).

(** The popup is on another origin: its location cannot be read. *)
Definition crossOrigin (w : Surface) : bool :=
  match location_hash w with
  | Some _ => false
  | None => true
  end.

(** The hash can be read and has known properties. *)
Definition recognized (known : string -> bool) (w : Surface) : bool :=
  match location_hash w with
  | Some h => known h
  | None => false
  end.

(** Open, readable, and nothing known in the hash. *)
Definition idle (known : string -> bool) (w : Surface) : bool :=
  negb (closed w) &&
  match location_hash w with
  | Some h => negb (known h)
  | None => false
  end.

(** Open, and no known hash to be seen (the read may throw). *)
Definition quiet (known : string -> bool) (w : Surface) : bool :=
  negb (closed w) && negb (recognized known w).

(** The calls that settle the promise. *)
Definition settles (e : Effect) : bool :=
  match e with
  | Resolve _ | Reject _ => true
  | _ => false
  end.

Definition isCleanPopup (e : Effect) : bool :=
  match e with
  | CleanPopup _ => true
  | _ => false
  end.

Definition isRead (e : Effect) : bool :=
  match e with
  | ReadClosed | ReadHash => true
  | _ => false
  end.

(** The first tick count above the budget [floor(timeout / interval)]. *)
Definition timeoutTick (POLL_INTERVAL_MS timeout : Q) : nat :=
  Z.to_nat (Z.max 1 (Qfloor (timeout / POLL_INTERVAL_MS) + 1)).

(** ** Sample values for the examples *)

(** A hash is taken as known when it starts with [#code=]. *)
Definition knownCode (h : string) : bool := String.prefix "#code=" h.

(** The empty string is the only empty url. *)
Definition emptyString (s : string) : bool :=
  match s with
  | EmptyString => true
  | _ => false
  end.

Definition cacheKey (k : string) : string := "msal." ++ k.

Definition elsewhere : Surface := mkSurface false None.
Definition loading : Surface := mkSurface false (Some "#").
Definition redirected : Surface := mkSurface false (Some "#code=abc").
Definition gone : Surface := mkSurface true (Some "#code=abc").

(** ** Sessions the code can reach *)

(** Calls that neither settle the promise nor clean up nor stop the
    interval. *)
Definition calm (e : Effect) : bool :=
  match e with
  | CleanPopup _ | ClearInterval | Resolve _ | Reject _ => false
  | _ => true
  end.

(** The state a settling call leaves the promise in. *)
Definition outcome (e : Effect) : PromiseState :=
  match e with
  | Resolve h => Fulfilled h
  | Reject err => Rejected err
  | _ => Pending
  end.

(** The shape of a session in each state of its interval: before
    [setInterval] nothing has happened but the warning; while the interval
    runs the promise is pending and nothing was cleaned up; once it is
    cleared the trace ends with cleanup, [clearInterval] and the one
    settling call. *)
Definition wellFormed (s : Session) : Prop :=
  match timer s with
  | TimerUnset =>
      gate s <> GateFulfilled /\ ticks s = 0 /\ promise s = Pending /\
      closeCalls s = 0 /\ Forall (fun e => e = LogWarning) (trace s)
  | TimerActive =>
      gate s = GateFulfilled /\ promise s = Pending /\
      closeCalls s = 0 /\ Forall (fun e => calm e = true) (trace s)
  | TimerCleared =>
      gate s = GateFulfilled /\ popupClosed s = true /\
      exists pre c e,
        trace s = pre ++ [CleanPopup c; ClearInterval; e] /\
        Forall (fun e => calm e = true) pre /\
        settles e = true /\ promise s = outcome e
  end.

(** ** Comparing sessions and counting calls *)

(** Two sessions in the same state: all fields but the trace agree. *)
Definition sameState (s1 s2 : Session) : Prop :=
  ticks s1 = ticks s2 /\ gate s1 = gate s2 /\ timer s1 = timer s2 /\
  promise s1 = promise s2 /\ popupClosed s1 = popupClosed s2 /\
  closeCalls s1 = closeCalls s2.

Definition isWarning (e : Effect) : bool :=
  match e with
  | LogWarning => true
  | _ => false
  end.

(** The outcomes [monitorPopupForHash] can produce: pending, resolved with a
    hash that has known properties, cancelled, timed out. *)
Definition validOutcome (known : string -> bool) (p : PromiseState) : bool :=
  match p with
  | Pending => true
  | Fulfilled h => known h
  | Rejected UserCancelledError => true
  | Rejected MonitorPopupTimeoutError => true
  | Rejected EmptyNavigationUriError => false
  end.

(** Once the interval is cleared, which cleanup goes with which outcome:
    without the handle for a cancellation, with the handle for a known hash
    or a timeout. *)
Definition settledShape (known : string -> bool) (popupWindow : Window)
           (s : Session) : Prop :=
  match timer s with
  | TimerCleared =>
      exists pre c e,
        trace s = pre ++ [CleanPopup c; ClearInterval; e] /\
        Forall (fun e => calm e = true) pre /\
        promise s = outcome e /\
        ((c = None /\ e = Reject UserCancelledError) \/
         (c = Some popupWindow /\
          (e = Reject MonitorPopupTimeoutError \/
           exists h, e = Resolve h /\ known h = true)))
  | _ => True
  end.

(** A poll that can decide: the popup is closed, or its hash can be read. *)
Definition decisive (ev : Event) : bool :=
  match ev with
  | PollElapsed w => closed w || negb (crossOrigin w)
  | _ => true
  end.

(** A sequence of calls of [initiateAuthRequest], each on the browser the
    one before has left. *)
Definition launchAll (isEmpty : string -> bool)
           (generateCacheKey : string -> string)
           (INTERACTION_STATUS_KEY INTERACTION_IN_PROGRESS_VALUE : string)
           (requests : list (string * PopupParams)) (b : Browser) : Browser :=
  fold_left
    (fun b rq => fst (initiateAuthRequest isEmpty generateCacheKey
                        INTERACTION_STATUS_KEY INTERACTION_IN_PROGRESS_VALUE
                        (fst rq) (snd rq) b))
    requests b.

Definition isOpenPopup (c : Call) : bool :=
  match c with
  | OpenPopup _ _ _ => true
  | _ => false
  end.

Definition isSetTemporaryCache (c : Call) : bool :=
  match c with
  | SetTemporaryCache _ _ _ => true
  | _ => false
  end.

Definition isLogError (c : Call) : bool :=
  match c with
  | LogError _ => true
  | _ => false
  end.

Definition isReadHash (e : Effect) : bool :=
  match e with
  | ReadHash => true
  | _ => false
  end.

Definition isPoll (ev : Event) : bool :=
  match ev with
  | PollElapsed _ => true
  | _ => false
  end.

(** * Properties *)

(** ** One run of the interval callback *)

Section Tick.

Variable known : string -> bool.
Variable popupWindow : Window.
Variable maxTicks : Q.

Local Abbreviation tick w s := (exec (onTick known popupWindow maxTicks w) s).

(** Run the callback on a session and a surface given field by field. *)
Ltac run_tick s w :=
  destruct s as [t g i [] [] n tr], w as [cl lh]; cbn in *; subst;
  cbv -[ticks_gt app];
  repeat match goal with
         | H : _ = _ |- _ => rewrite H
         end;
  rewrite <- ?app_assoc; reflexivity.

(** The window is closed: cleanup without a handle, stop, reject. *)
Lemma tick_closed (w : Surface) (s : Session) :
  closed w = true ->
  tick w s =
    mkSession (ticks s) (gate s) TimerCleared
              (match promise s with
               | Pending => Rejected UserCancelledError
               | p => p
               end)
              (popupClosed s) (closeCalls s)
              (trace s ++ [ReadClosed; CleanPopup None; ClearInterval;
                           Reject UserCancelledError]).
Proof.
  intros Hc. run_tick s w.
Qed.

(** The window is open but on another origin: the counter moves, the read
    throws, the interval keeps running. *)
Lemma tick_throws (w : Surface) (s : Session) :
  closed w = false -> location_hash w = None ->
  tick w s =
    mkSession (S (ticks s)) (gate s) (timer s) (promise s)
              (popupClosed s) (closeCalls s)
              (trace s ++ [ReadClosed; ReadHash; Thrown]).
Proof.
  intros Hc Hh. run_tick s w.
Qed.

(** A known hash: cleanup with the handle, stop, resolve with the hash. *)
Lemma tick_known (w : Surface) (h : string) (s : Session) :
  closed w = false -> location_hash w = Some h -> known h = true ->
  tick w s =
    mkSession (S (ticks s)) (gate s) TimerCleared
              (match promise s with
               | Pending => Fulfilled h
               | p => p
               end)
              true
              (if popupClosed s then closeCalls s else S (closeCalls s))
              (trace s ++ [ReadClosed; ReadHash; CleanPopup (Some popupWindow);
                           ClearInterval; Resolve h]).
Proof.
  intros Hc Hh Hk. run_tick s w.
Qed.

(** No known hash and the counter above the budget: cleanup with the
    handle, stop, reject. *)
Lemma tick_timeout (w : Surface) (h : string) (s : Session) :
  closed w = false -> location_hash w = Some h -> known h = false ->
  ticks_gt (S (ticks s)) maxTicks = true ->
  tick w s =
    mkSession (S (ticks s)) (gate s) TimerCleared
              (match promise s with
               | Pending => Rejected MonitorPopupTimeoutError
               | p => p
               end)
              true
              (if popupClosed s then closeCalls s else S (closeCalls s))
              (trace s ++ [ReadClosed; ReadHash; CleanPopup (Some popupWindow);
                           ClearInterval; Reject MonitorPopupTimeoutError]).
Proof.
  intros Hc Hh Hk Hgt. run_tick s w.
Qed.

(** No known hash and the counter within the budget: next tick. *)
Lemma tick_idle (w : Surface) (h : string) (s : Session) :
  closed w = false -> location_hash w = Some h -> known h = false ->
  ticks_gt (S (ticks s)) maxTicks = false ->
  tick w s =
    mkSession (S (ticks s)) (gate s) (timer s) (promise s)
              (popupClosed s) (closeCalls s)
              (trace s ++ [ReadClosed; ReadHash]).
Proof.
  intros Hc Hh Hk Hgt. run_tick s w.
Qed.

End Tick.

(** ** The tick budget *)

(** An integer count is above the budget exactly when it is above the floor
    of the budget. *)
Lemma ticks_gt_floor (n : nat) (maxTicks : Q) :
  ticks_gt n maxTicks = true <-> (Qfloor maxTicks < Z.of_nat n)%Z.
Proof.
  unfold ticks_gt. rewrite negb_true_iff, <- not_true_iff_false, Qle_bool_iff.
  split.
  - intros Hn. apply Z.nle_gt. intros Hle. apply Hn.
    apply Qle_trans with (inject_Z (Qfloor maxTicks)).
    + now rewrite <- Zle_Qle.
    + apply Qfloor_le.
  - intros Hlt Hle. apply Qfloor_resp_le in Hle. rewrite Qfloor_Z in Hle. lia.
Qed.

Lemma ticks_gt_floor_false (n : nat) (maxTicks : Q) :
  ticks_gt n maxTicks = false <-> (Z.of_nat n <= Qfloor maxTicks)%Z.
Proof.
  rewrite <- not_true_iff_false, ticks_gt_floor. lia.
Qed.

(** Once above the budget, always above. *)
Lemma ticks_gt_mono (n m : nat) (maxTicks : Q) :
  n <= m -> ticks_gt n maxTicks = true -> ticks_gt m maxTicks = true.
Proof. rewrite !ticks_gt_floor. lia. Qed.

Lemma ticks_within_mono (n m : nat) (maxTicks : Q) :
  n <= m -> ticks_gt m maxTicks = false -> ticks_gt n maxTicks = false.
Proof. rewrite !ticks_gt_floor_false. lia. Qed.

(** [timeoutTick] is the first tick count above the floor of the budget. *)
Lemma timeoutTick_first (POLL_INTERVAL_MS timeout : Q) (n : nat) :
  1 <= n ->
  (ticks_gt n (maxTicksOf POLL_INTERVAL_MS timeout) = true
   <-> timeoutTick POLL_INTERVAL_MS timeout <= n).
Proof.
  intros Hn. rewrite ticks_gt_floor. unfold timeoutTick, maxTicksOf. lia.
Qed.

Lemma timeoutTick_pos (POLL_INTERVAL_MS timeout : Q) :
  1 <= timeoutTick POLL_INTERVAL_MS timeout.
Proof. unfold timeoutTick. lia. Qed.

(** ** Sessions *)

Section Session.

Variable known : string -> bool.
Variable popupWindow : Window.
Variable maxTicks : Q.

Local Abbreviation step1 := (step known popupWindow maxTicks).
Local Abbreviation run evs s := (fold_left (step known popupWindow maxTicks) evs s).

Lemma observe_fields (w : Surface) (s : Session) :
  ticks (observe w s) = ticks s /\ gate (observe w s) = gate s /\
  timer (observe w s) = timer s /\ promise (observe w s) = promise s /\
  closeCalls (observe w s) = closeCalls s /\ trace (observe w s) = trace s /\
  popupClosed (observe w s) = popupClosed s || closed w.
Proof. now repeat split. Qed.

Lemma observe_closed (w : Surface) (s : Session) :
  popupClosed s = true -> observe w s = s.
Proof. destruct s as [t g i p c n tr]. cbn. now intros ->. Qed.

Lemma observe_open (w : Surface) (s : Session) :
  closed w = false -> observe w s = s.
Proof.
  destruct s as [t g i p c n tr]. unfold observe. cbn. intros ->.
  now rewrite orb_false_r.
Qed.

Lemma observe_wellFormed (w : Surface) (s : Session) :
  wellFormed s -> wellFormed (observe w s).
Proof.
  unfold wellFormed. cbn. destruct (timer s); try easy.
  intros (Hg & Hc & Htr). rewrite Hc. easy.
Qed.

Lemma calm_warning (tr : list Effect) :
  Forall (fun e => e = LogWarning) tr -> Forall (fun e => calm e = true) tr.
Proof. intros H. eapply Forall_impl; [exact H|]. now intros e ->. Qed.

(** A tick keeps the session well formed. *)
Lemma tick_wellFormed (s : Session) (w : Surface) :
  wellFormed s -> timer s = TimerActive ->
  (closed w = true -> popupClosed s = true) ->
  wellFormed (exec (onTick known popupWindow maxTicks w) s).
Proof.
  intros Hs Ht Hpc. unfold wellFormed in Hs. rewrite Ht in Hs.
  destruct Hs as (Hg & Hp & Hc & Htr).
  destruct (closed w) eqn:Hcl.
  - rewrite tick_closed by exact Hcl. unfold wellFormed. cbn.
    rewrite Hp. repeat split; try easy; [now apply Hpc|].
    exists (trace s ++ [ReadClosed]), None, (Reject UserCancelledError).
    rewrite <- app_assoc. repeat split; try easy.
    apply Forall_app. split; [exact Htr | now repeat constructor].
  - destruct (location_hash w) as [h|] eqn:Hh.
    + destruct (known h) eqn:Hk.
      * rewrite (tick_known _ _ _ w h) by easy. unfold wellFormed. cbn.
        rewrite Hp. repeat split; try easy.
        exists (trace s ++ [ReadClosed; ReadHash]), (Some popupWindow), (Resolve h).
        rewrite <- app_assoc. repeat split; try easy.
        apply Forall_app. split; [exact Htr | now repeat constructor].
      * destruct (ticks_gt (S (ticks s)) maxTicks) eqn:Hgt.
        -- rewrite (tick_timeout _ _ _ w h) by easy. unfold wellFormed. cbn.
           rewrite Hp. repeat split; try easy.
           exists (trace s ++ [ReadClosed; ReadHash]), (Some popupWindow),
             (Reject MonitorPopupTimeoutError).
           rewrite <- app_assoc. repeat split; try easy.
           apply Forall_app. split; [exact Htr | now repeat constructor].
        -- rewrite (tick_idle _ _ _ w h) by easy. unfold wellFormed. cbn.
           rewrite Ht. repeat split; try easy.
           apply Forall_app. split; [exact Htr | now repeat constructor].
    + rewrite tick_throws by easy. unfold wellFormed. cbn.
      rewrite Ht. repeat split; try easy.
      apply Forall_app. split; [exact Htr | now repeat constructor].
Qed.

(** Every step keeps the session well formed. *)
Lemma step_wellFormed (s : Session) (ev : Event) :
  wellFormed s -> wellFormed (step1 s ev).
Proof.
  intros Hs. destruct ev as [| |w]; cbn [step].
  - destruct (gate s) eqn:Hg; try exact Hs.
    unfold wellFormed in *. cbn. destruct (timer s).
    + destruct Hs as (_ & _ & Hp & Hc & Htr). repeat split; try easy.
      apply Forall_app. split; [now apply calm_warning | now repeat constructor].
    + destruct Hs as (Hg' & _). congruence.
    + destruct Hs as (Hg' & _). congruence.
  - destruct (gate s) eqn:Hg; try exact Hs.
    unfold wellFormed in *. cbn. destruct (timer s).
    + destruct Hs as (_ & Ht & Hp & Hc & Htr). repeat split; easy.
    + destruct Hs as (Hg' & _). congruence.
    + destruct Hs as (Hg' & _). congruence.
  - apply (observe_wellFormed w) in Hs.
    destruct (observe_fields w s) as (_ & _ & _ & _ & _ & _ & Hpc).
    destruct (timer (observe w s)) eqn:Ht; try exact Hs.
    apply tick_wellFormed; [exact Hs | exact Ht |].
    intros Hcl. rewrite Hpc, Hcl. apply orb_true_r.
Qed.

Lemma run_wellFormed (evs : list Event) (s : Session) :
  wellFormed s -> wellFormed (run evs s).
Proof.
  revert s. induction evs as [|ev evs IH]; intros s Hs; cbn; [exact Hs|].
  apply IH, step_wellFormed, Hs.
Qed.

(** After [clearInterval] no event changes the session. *)
Lemma step_cleared (s : Session) (ev : Event) :
  wellFormed s -> timer s = TimerCleared -> step1 s ev = s.
Proof.
  unfold wellFormed. intros Hs Ht. rewrite Ht in Hs.
  destruct Hs as (Hg & Hc & _). destruct ev as [| |w]; cbn [step].
  - now rewrite Hg.
  - now rewrite Hg.
  - rewrite (observe_closed w s Hc). now rewrite Ht.
Qed.

Lemma run_cleared (evs : list Event) (s : Session) :
  wellFormed s -> timer s = TimerCleared -> run evs s = s.
Proof.
  intros Hs Ht. induction evs as [|ev evs IH]; cbn; [easy|].
  now rewrite step_cleared.
Qed.

(** The promise is settled exactly when the interval is cleared. *)
Lemma settled_cleared (s : Session) :
  wellFormed s -> (promise s <> Pending <-> timer s = TimerCleared).
Proof.
  unfold wellFormed. destruct (timer s).
  - intros (_ & _ & -> & _). easy.
  - intros (_ & -> & _). easy.
  - intros (_ & _ & pre & c & e & _ & _ & He & ->).
    destruct e; cbn in *; easy.
Qed.

(** A tick leaves the gate as it is. *)
Lemma tick_gate (s : Session) (w : Surface) :
  gate (exec (onTick known popupWindow maxTicks w) s) = gate s.
Proof.
  destruct (closed w) eqn:Hcl.
  - now rewrite tick_closed.
  - destruct (location_hash w) as [h|] eqn:Hh.
    + destruct (known h) eqn:Hk.
      * now rewrite (tick_known _ _ _ w h).
      * destruct (ticks_gt (S (ticks s)) maxTicks) eqn:Hgt.
        -- now rewrite (tick_timeout _ _ _ w h).
        -- now rewrite (tick_idle _ _ _ w h).
    + now rewrite tick_throws.
Qed.

(** Before the gate resolves the interval is not set. *)
Lemma step_gate_waiting (s : Session) (ev : Event) :
  ev <> GateResolves -> gate s <> GateFulfilled ->
  gate (step1 s ev) <> GateFulfilled.
Proof.
  intros Hev Hg. destruct ev as [| |w]; cbn [step]; [easy| |].
  - destruct (gate s) eqn:E; cbn; congruence.
  - destruct (timer (observe w s)) eqn:Ht; try easy.
    now rewrite tick_gate.
Qed.

Lemma run_gate_waiting (evs : list Event) (s : Session) :
  Forall (fun ev => ev <> GateResolves) evs -> gate s <> GateFulfilled ->
  gate (run evs s) <> GateFulfilled.
Proof.
  revert s. induction evs as [|ev evs IH]; intros s Hevs Hg; cbn; [easy|].
  inversion Hevs; subst. apply IH; [easy|]. now apply step_gate_waiting.
Qed.

(** A rejected gate stays rejected. *)
Lemma step_gate_rejected (s : Session) (ev : Event) :
  wellFormed s -> gate s = GateRejected -> gate (step1 s ev) = GateRejected.
Proof.
  intros Hs Hg. destruct ev as [| |w]; cbn [step].
  - now rewrite Hg.
  - now rewrite Hg.
  - unfold wellFormed in Hs. cbn. destruct (timer s); try easy.
    + destruct Hs as (Hg' & _). congruence.
Qed.

Lemma run_gate_rejected (evs : list Event) (s : Session) :
  wellFormed s -> gate s = GateRejected -> gate (run evs s) = GateRejected.
Proof.
  revert s. induction evs as [|ev evs IH]; intros s Hs Hg; cbn; [easy|].
  apply IH; [now apply step_wellFormed | now apply step_gate_rejected].
Qed.

End Session.

(** ** Runs of polls *)

Section Polls.

Variable known : string -> bool.
Variable popupWindow : Window.
Variable maxTicks : Q.

Local Abbreviation run evs s := (fold_left (step known popupWindow maxTicks) evs s).
Local Abbreviation tick w s := (exec (onTick known popupWindow maxTicks w) s).

Lemma step_poll_open (w : Surface) (s : Session) :
  timer s = TimerActive -> closed w = false ->
  step known popupWindow maxTicks s (PollElapsed w) = tick w s.
Proof.
  intros Ht Hc. cbn [step]. rewrite (observe_open w s Hc). now rewrite Ht.
Qed.

Lemma step_poll_closed (w : Surface) (s : Session) :
  timer s = TimerActive -> closed w = true ->
  step known popupWindow maxTicks s (PollElapsed w) =
    mkSession (ticks s) (gate s) TimerCleared
              (match promise s with
               | Pending => Rejected UserCancelledError
               | p => p
               end)
              true (closeCalls s)
              (trace s ++ [ReadClosed; CleanPopup None; ClearInterval;
                           Reject UserCancelledError]).
Proof.
  intros Ht Hc. cbn [step].
  destruct (observe_fields w s) as (H1 & H2 & H3 & H4 & H5 & H6 & H7).
  rewrite H3, Ht, tick_closed by exact Hc.
  rewrite H1, H2, H4, H5, H6, H7, Hc. now rewrite orb_true_r.
Qed.

Lemma quiet_cases (w : Surface) :
  quiet known w = true ->
  closed w = false /\
  (location_hash w = None \/
   exists h, location_hash w = Some h /\ known h = false).
Proof.
  unfold quiet, recognized. destruct (closed w); [easy|]. cbn.
  destruct (location_hash w) as [h|]; [|now auto].
  rewrite negb_true_iff. eauto.
Qed.

Lemma idle_cases (w : Surface) :
  idle known w = true ->
  closed w = false /\ exists h, location_hash w = Some h /\ known h = false.
Proof.
  unfold idle. destruct (closed w); [easy|]. cbn.
  destruct (location_hash w) as [h|]; [|easy].
  rewrite negb_true_iff. eauto.
Qed.

Lemma idle_quiet (w : Surface) : idle known w = true -> quiet known w = true.
Proof.
  intros (Hc & h & Hh & Hk)%idle_cases. unfold quiet, recognized.
  now rewrite Hc, Hh, Hk.
Qed.

(** Polls that find the popup open without a known hash, within the
    budget: one tick each, nothing else changes. *)
Lemma run_quiet (ws : list Surface) (s : Session) :
  timer s = TimerActive ->
  Forall (fun w => quiet known w = true) ws ->
  ticks_gt (ticks s + length ws) maxTicks = false ->
  let s' := run (map PollElapsed ws) s in
  ticks s' = ticks s + length ws /\ timer s' = TimerActive /\
  gate s' = gate s /\ promise s' = promise s /\
  popupClosed s' = popupClosed s /\ closeCalls s' = closeCalls s.
Proof.
  revert s. induction ws as [|w ws IH]; intros s Ht Hq Hgt; cbn -[step].
  - repeat split; try easy; lia.
  - inversion Hq as [|? ? Hw Hws]; subst.
    destruct (quiet_cases w Hw) as (Hc & Hh).
    rewrite step_poll_open by easy.
    assert (Hgt1 : ticks_gt (S (ticks s)) maxTicks = false).
    { apply ticks_within_mono with (2 := Hgt). cbn. lia. }
    assert (Hnext : exists s1, tick w s = s1 /\ ticks s1 = S (ticks s) /\
              timer s1 = TimerActive /\ gate s1 = gate s /\
              promise s1 = promise s /\ popupClosed s1 = popupClosed s /\
              closeCalls s1 = closeCalls s).
    { destruct Hh as [Hh | (h & Hh & Hk)].
      - rewrite tick_throws by easy. eexists. split; [reflexivity|]. now cbn.
      - rewrite (tick_idle _ _ _ w h) by easy.
        eexists. split; [reflexivity|]. now cbn. }
    destruct Hnext as (s1 & -> & Hn & Ht1 & Hg1 & Hp1 & Hc1 & Hcc1).
    destruct (IH s1 Ht1 Hws) as (IH1 & IH2 & IH3 & IH4 & IH5 & IH6).
    { rewrite Hn. replace (S (ticks s) + length ws) with (ticks s + length (w :: ws));
        [exact Hgt | cbn; lia]. }
    cbn in *. repeat split; try congruence. lia.
Qed.

End Polls.

(** ** The monitor *)

Section Monitor.

Variable POLL_INTERVAL_MS : Q.
Variable DEFAULT_POPUP_TIMEOUT_MS : Q.
Variable known : string -> bool.
Variable popupWindow : Window.
Variable timeout : Q.

Local Abbreviation monitor :=
  (monitorPopupForHash POLL_INTERVAL_MS DEFAULT_POPUP_TIMEOUT_MS known
                       popupWindow timeout).
Local Abbreviation run evs s :=
  (fold_left (step known popupWindow (maxTicksOf POLL_INTERVAL_MS timeout)) evs s).

Lemma executor_fields :
  let s := executor DEFAULT_POPUP_TIMEOUT_MS timeout in
  ticks s = 0 /\ gate s = GatePending /\ timer s = TimerUnset /\
  promise s = Pending /\ popupClosed s = false /\ closeCalls s = 0 /\
  Forall (fun e => e = LogWarning) (trace s).
Proof.
  unfold executor. destruct (negb _); cbn; repeat split; auto.
Qed.

Lemma executor_wellFormed : wellFormed (executor DEFAULT_POPUP_TIMEOUT_MS timeout).
Proof.
  destruct executor_fields as (H1 & H2 & H3 & H4 & H5 & H6 & H7).
  unfold wellFormed. rewrite H3, H2. easy.
Qed.

Lemma monitor_wellFormed (evs : list Event) : wellFormed (monitor evs).
Proof. apply run_wellFormed, executor_wellFormed. Qed.

Lemma monitor_app (evs later : list Event) :
  monitor (evs ++ later) = run later (monitor evs).
Proof. unfold monitorPopupForHash. apply fold_left_app. Qed.

(** The session right after the gate has resolved. *)
Lemma monitor_started :
  let s := monitor [GateResolves] in
  ticks s = 0 /\ gate s = GateFulfilled /\ timer s = TimerActive /\
  promise s = Pending /\ popupClosed s = false /\ closeCalls s = 0.
Proof.
  destruct executor_fields as (H1 & H2 & H3 & H4 & H5 & H6 & H7).
  unfold monitorPopupForHash. cbn [fold_left step]. rewrite H2. now cbn.
Qed.

(** While the interval is not set, a poll of an open popup changes
    nothing. *)
Lemma run_unset (ws : list Surface) (s : Session) :
  timer s = TimerUnset ->
  Forall (fun w => closed w = false) ws ->
  run (map PollElapsed ws) s = s.
Proof.
  intros Ht Hws. induction Hws as [|w ws Hw _ IH]; cbn -[step]; [easy|].
  cbn [step]. rewrite (observe_open w s Hw), Ht. exact IH.
Qed.

(** The gate lets the polls of a cross-origin popup go by. *)
Lemma sameOriginGate_waits (pre rest : list Surface) :
  Forall (fun w => crossOrigin w = true) pre ->
  sameOriginGate true (pre ++ rest) =
    map PollElapsed pre ++ sameOriginGate true rest.
Proof.
  intros Hpre. induction Hpre as [|w ws Hw _ IH]; cbn; [easy|].
  unfold crossOrigin in Hw. destruct (location_hash w); [easy|].
  now rewrite IH.
Qed.

End Monitor.

(** ** What the specification says of the monitor *)

Section MonitorClaims.

Variable POLL_INTERVAL_MS : Q.
Variable DEFAULT_POPUP_TIMEOUT_MS : Q.
Variable known : string -> bool.

Local Abbreviation monitor :=
  (monitorPopupForHash POLL_INTERVAL_MS DEFAULT_POPUP_TIMEOUT_MS known).
Local Abbreviation surface :=
  (monitorSurface POLL_INTERVAL_MS DEFAULT_POPUP_TIMEOUT_MS known).

(** A session whose gate has not resolved has done nothing. *)
Lemma waiting_session (s : Session) :
  wellFormed s -> gate s <> GateFulfilled ->
  ticks s = 0 /\ timer s = TimerUnset /\ promise s = Pending /\
  Forall (fun e => e = LogWarning) (trace s).
Proof.
  unfold wellFormed. destruct (timer s).
  - now intros (_ & Ht & Hp & _ & Htr) _.
  - now intros (Hg & _) Hn.
  - now intros (Hg & _) Hn.
Qed.

(** X11. Whatever happens before the same-origin gate resolves, the monitor
    has run no tick: the counter is 0, the interval is not set, the promise
    is pending (so not timed out) and nothing but the warning was done.
    Polls that pass before the gate resolves, while the popup is open on
    another origin, leave no mark: the session is the one of the surface
    without them, for every timeout and however many such polls there are.
    Nothing is said here of the polls after the gate. *)
Theorem monitorPopupForHash_gate_first (popupWindow : Window) (timeout : Q)
    (evs : list Event) (pre rest : list Surface) :
  Forall (fun ev => ev <> GateResolves) evs ->
  Forall (fun w => crossOrigin w = true /\ closed w = false) pre ->
  (let s := monitor popupWindow timeout evs in
   ticks s = 0 /\ timer s = TimerUnset /\ promise s = Pending /\
   Forall (fun e => e = LogWarning) (trace s)) /\
  surface popupWindow timeout (pre ++ rest) = surface popupWindow timeout rest /\
  (let s := surface popupWindow timeout pre in
   ticks s = 0 /\ timer s = TimerUnset /\ promise s = Pending).
Proof.
  intros Hevs Hpre.
  destruct (executor_fields DEFAULT_POPUP_TIMEOUT_MS timeout)
    as (E1 & E2 & E3 & E4 & E5 & E6 & E7).
  assert (Hskip : forall l, surface popupWindow timeout (pre ++ l) =
                            surface popupWindow timeout l).
  { intros l. unfold monitorSurface.
    rewrite sameOriginGate_waits by (eapply Forall_impl; [exact Hpre|]; now intros w []).
    rewrite monitor_app. unfold monitorPopupForHash.
    rewrite run_unset; [reflexivity | exact E3 |].
    eapply Forall_impl; [exact Hpre|]. now intros w []. }
  split; [|split].
  - cbn zeta. apply waiting_session; [apply monitor_wellFormed|].
    apply run_gate_waiting; [exact Hevs|]. now rewrite E2.
  - apply Hskip.
  - cbn zeta. rewrite <- (app_nil_r pre), Hskip.
    unfold monitorSurface, monitorPopupForHash. cbn. easy.
Qed.

Lemma calm_no_settle (tr : list Effect) :
  Forall (fun e => calm e = true) tr -> List.filter settles tr = [].
Proof.
  induction 1 as [|e tr He _ IH]; cbn; [easy|].
  destruct e; cbn in *; easy.
Qed.

(** C4. In every session the promise is settled by at most one call.
    Either it is pending and no settling call was made, or the trace ends
    with the cleanup, [clearInterval] and then the one settling call, with
    no settling call before; and from then on no event changes the
    session. *)
Theorem monitorPopupForHash_single_outcome (popupWindow : Window) (timeout : Q)
    (evs later : list Event) :
  let s := monitor popupWindow timeout evs in
  length (List.filter settles (trace s)) <= 1 /\
  ((promise s = Pending /\ timer s <> TimerCleared /\
    List.filter settles (trace s) = []) \/
   (exists pre c e,
      trace s = pre ++ [CleanPopup c; ClearInterval; e] /\
      List.filter settles pre = [] /\ settles e = true /\
      promise s = outcome e /\ timer s = TimerCleared /\
      monitor popupWindow timeout (evs ++ later) = s)).
Proof.
  cbn zeta.
  pose proof (monitor_wellFormed POLL_INTERVAL_MS DEFAULT_POPUP_TIMEOUT_MS
                known popupWindow timeout evs) as Hwf.
  set (s := monitor popupWindow timeout evs) in *.
  pose proof Hwf as Hs. unfold wellFormed in Hs.
  destruct (timer s) eqn:Ht.
  - destruct Hs as (_ & _ & Hp & _ & Htr).
    apply calm_warning, calm_no_settle in Htr. rewrite Htr.
    split; [cbn; lia|]. left. easy.
  - destruct Hs as (_ & Hp & _ & Htr).
    apply calm_no_settle in Htr. rewrite Htr.
    split; [cbn; lia|]. left. easy.
  - destruct Hs as (_ & _ & pre & c & e & Htr & Hpre & He & Hp).
    apply calm_no_settle in Hpre.
    split.
    + rewrite Htr, List.filter_app, Hpre. cbn. rewrite He. cbn. lia.
    + right. exists pre, c, e. repeat split; try easy.
      rewrite monitor_app. now apply run_cleared.
Qed.

(** C10. If the same-origin gate rejects before it ever resolved, the
    promise of the monitor stays pending whatever follows: the interval is
    never set, no tick is counted, and no call other than the warning is
    made, so no cleanup and no settling call. *)
Theorem monitorPopupForHash_gate_rejected (popupWindow : Window) (timeout : Q)
    (pre post : list Event) :
  Forall (fun ev => ev <> GateResolves) pre ->
  let s := monitor popupWindow timeout (pre ++ GateRejects :: post) in
  gate s = GateRejected /\ promise s = Pending /\ timer s = TimerUnset /\
  ticks s = 0 /\ Forall (fun e => e = LogWarning) (trace s).
Proof.
  intros Hpre. cbn zeta.
  destruct (executor_fields DEFAULT_POPUP_TIMEOUT_MS timeout)
    as (E1 & E2 & E3 & E4 & E5 & E6 & E7).
  pose proof (monitor_wellFormed POLL_INTERVAL_MS DEFAULT_POPUP_TIMEOUT_MS
                known popupWindow timeout pre) as Hwf.
  assert (Hg : gate (monitor popupWindow timeout pre) <> GateFulfilled).
  { apply run_gate_waiting; [exact Hpre|]. now rewrite E2. }
  rewrite monitor_app. cbn [fold_left].
  set (s0 := monitor popupWindow timeout pre) in *. clearbody s0.
  set (mt := maxTicksOf POLL_INTERVAL_MS timeout).
  assert (Hwf1 : wellFormed (step known popupWindow mt s0 GateRejects))
    by now apply step_wellFormed.
  assert (Hg1 : gate (step known popupWindow mt s0 GateRejects) = GateRejected).
  { cbn [step]. destruct (gate s0) eqn:E; cbn; congruence. }
  pose proof (run_gate_rejected known popupWindow mt post _ Hwf1 Hg1) as Hg2.
  pose proof (run_wellFormed known popupWindow mt post _ Hwf1) as Hwf2.
  split; [exact Hg2|].
  destruct (waiting_session _ Hwf2) as (H1 & H2 & H3 & H4); [congruence|].
  easy.
Qed.

End MonitorClaims.

(** ** From the gate to the outcome *)

Section Outcomes.

Variable POLL_INTERVAL_MS : Q.
Variable DEFAULT_POPUP_TIMEOUT_MS : Q.
Variable known : string -> bool.
Variable popupWindow : Window.
Variable timeout : Q.

Local Abbreviation monitor :=
  (monitorPopupForHash POLL_INTERVAL_MS DEFAULT_POPUP_TIMEOUT_MS known
                       popupWindow timeout).
Local Abbreviation maxTicks := (maxTicksOf POLL_INTERVAL_MS timeout).
Local Abbreviation run evs s := (fold_left (step known popupWindow maxTicks) evs s).

(** Once a step has cleared the interval, the rest changes nothing. *)
Lemma run_terminal (s : Session) (ev : Event) (later : list Event) :
  wellFormed s ->
  timer (step known popupWindow maxTicks s ev) = TimerCleared ->
  run (ev :: later) s = step known popupWindow maxTicks s ev.
Proof.
  intros Hs Ht. cbn [fold_left].
  apply run_cleared; [now apply step_wellFormed | exact Ht].
Qed.

(** The gate has resolved and the polls since found the popup open
    without a known hash, within the budget. *)
Lemma monitor_quiet (ws : list Surface) :
  Forall (fun w => quiet known w = true) ws ->
  ws = [] \/ ticks_gt (length ws) maxTicks = false ->
  let s := monitor (GateResolves :: map PollElapsed ws) in
  wellFormed s /\ ticks s = length ws /\ timer s = TimerActive /\
  promise s = Pending /\ popupClosed s = false /\ closeCalls s = 0.
Proof.
  intros Hq Hb. cbn zeta.
  pose proof (monitor_wellFormed POLL_INTERVAL_MS DEFAULT_POPUP_TIMEOUT_MS
                known popupWindow timeout (GateResolves :: map PollElapsed ws)) as Hwf.
  split; [exact Hwf|].
  destruct (monitor_started POLL_INTERVAL_MS DEFAULT_POPUP_TIMEOUT_MS known
              popupWindow timeout) as (S1 & S2 & S3 & S4 & S5 & S6).
  change (GateResolves :: map PollElapsed ws)
    with ([GateResolves] ++ map PollElapsed ws).
  rewrite monitor_app.
  destruct Hb as [-> | Hb]; [now cbn|].
  destruct (run_quiet known popupWindow maxTicks ws _ S3 Hq)
    as (R1 & R2 & R3 & R4 & R5 & R6).
  { now rewrite S1. }
  cbn zeta in *. repeat split; try congruence. lia.
Qed.

(** Polls that find the popup open with a readable hash that is not known:
    the promise is pending up to the tick before [timeoutTick] and rejected
    with the timeout error from that tick on. *)
Lemma monitor_idle (ws : list Surface) :
  Forall (fun w => idle known w = true) ws ->
  let s := monitor (GateResolves :: map PollElapsed ws) in
  let T := timeoutTick POLL_INTERVAL_MS timeout in
  (length ws < T ->
   ticks s = length ws /\ timer s = TimerActive /\ promise s = Pending /\
   popupClosed s = false /\ closeCalls s = 0) /\
  (T <= length ws ->
   ticks s = T /\ timer s = TimerCleared /\
   promise s = Rejected MonitorPopupTimeoutError /\
   popupClosed s = true /\ closeCalls s = 1 /\
   exists pre,
     trace s = pre ++ [CleanPopup (Some popupWindow); ClearInterval;
                       Reject MonitorPopupTimeoutError] /\
     Forall (fun e => calm e = true) pre).
Proof.
  intros Hidle. cbn zeta.
  pose proof (timeoutTick_pos POLL_INTERVAL_MS timeout) as HT.
  assert (Hbudget : forall l : list Surface,
             length l < timeoutTick POLL_INTERVAL_MS timeout ->
             l = [] \/ ticks_gt (length l) maxTicks = false).
  { intros [|x l] Hl; [now left|right].
    apply not_true_iff_false. rewrite timeoutTick_first by (cbn; lia). lia. }
  split.
  - intros Hlt.
    destruct (monitor_quiet ws) as (_ & Q); [|now apply Hbudget|easy].
    eapply Forall_impl; [exact Hidle|]. apply idle_quiet.
  - intros Hge.
    set (T := timeoutTick POLL_INTERVAL_MS timeout) in *.
    rewrite <- (take_drop (T - 1) ws) in Hidle |- *.
    apply Forall_app in Hidle. destruct Hidle as (Hpre & Hpost).
    assert (Hlen : length (take (T - 1) ws) = T - 1) by (rewrite length_take; lia).
    destruct (drop (T - 1) ws) as [|w ws2] eqn:Hdrop.
    { apply (f_equal length) in Hdrop. rewrite length_drop in Hdrop.
      cbn in Hdrop. lia. }
    inversion Hpost as [|? ? Hw _]; subst.
    destruct (idle_cases known w Hw) as (Hc & h & Hh & Hk).
    destruct (monitor_quiet (take (T - 1) ws)) as (Hwf & Q1 & Q2 & Q3 & Q4 & Q5).
    { eapply Forall_impl; [exact Hpre|]. apply idle_quiet. }
    { apply Hbudget. lia. }
    rewrite map_app, app_comm_cons, monitor_app.
    set (s1 := monitor (GateResolves :: map PollElapsed (take (T - 1) ws))) in *.
    clearbody s1.
    assert (Hgt : ticks_gt (S (ticks s1)) maxTicks = true).
    { rewrite Q1, Hlen. apply timeoutTick_first; lia. }
    assert (Hstep : step known popupWindow maxTicks s1 (PollElapsed w) =
                    exec (onTick known popupWindow maxTicks w) s1)
      by now apply step_poll_open.
    cbn [map]. rewrite run_terminal; [|exact Hwf|].
    + rewrite Hstep, (tick_timeout _ _ _ w h) by easy. cbn.
      rewrite Q1, Hlen, Q3, Q4, Q5. repeat split; try easy; try lia.
      exists (trace s1 ++ [ReadClosed; ReadHash]).
      rewrite <- app_assoc. split; [easy|].
      apply Forall_app. split; [|now repeat constructor].
      unfold wellFormed in Hwf. rewrite Q2 in Hwf. easy.
    + rewrite Hstep, (tick_timeout _ _ _ w h) by easy. easy.
Qed.

(** A known hash on a running interval. *)
Lemma step_known (s : Session) (w : Surface) (h : string) (later : list Event) :
  wellFormed s -> timer s = TimerActive ->
  closed w = false -> location_hash w = Some h -> known h = true ->
  run (PollElapsed w :: later) s =
    mkSession (S (ticks s)) (gate s) TimerCleared (Fulfilled h) true
              (if popupClosed s then closeCalls s else S (closeCalls s))
              (trace s ++ [ReadClosed; ReadHash; CleanPopup (Some popupWindow);
                           ClearInterval; Resolve h]).
Proof.
  intros Hwf Ht Hc Hh Hk.
  assert (Hp : promise s = Pending).
  { unfold wellFormed in Hwf. rewrite Ht in Hwf. easy. }
  assert (Hstep : step known popupWindow maxTicks s (PollElapsed w) =
                  exec (onTick known popupWindow maxTicks w) s)
    by now apply step_poll_open.
  rewrite run_terminal; [|exact Hwf|].
  - rewrite Hstep, (tick_known _ _ _ w h) by easy. now rewrite Hp.
  - rewrite Hstep, (tick_known _ _ _ w h) by easy. easy.
Qed.

(** A closed popup on a running interval. *)
Lemma step_closed (s : Session) (w : Surface) (later : list Event) :
  wellFormed s -> timer s = TimerActive -> closed w = true ->
  run (PollElapsed w :: later) s =
    mkSession (ticks s) (gate s) TimerCleared (Rejected UserCancelledError)
              true 0
              (trace s ++ [ReadClosed; CleanPopup None; ClearInterval;
                           Reject UserCancelledError]).
Proof.
  intros Hwf Ht Hc.
  assert (Hp : promise s = Pending /\ closeCalls s = 0).
  { unfold wellFormed in Hwf. rewrite Ht in Hwf. easy. }
  destruct Hp as (Hp & Hcc).
  rewrite run_terminal; [|exact Hwf|].
  - rewrite step_poll_closed by easy. now rewrite Hp, Hcc.
  - rewrite step_poll_closed by easy. easy.
Qed.

End Outcomes.

(** ** What the specification says of the outcomes *)

Section OutcomeClaims.

Variable POLL_INTERVAL_MS : Q.
Variable DEFAULT_POPUP_TIMEOUT_MS : Q.
Variable known : string -> bool.

Local Abbreviation monitor :=
  (monitorPopupForHash POLL_INTERVAL_MS DEFAULT_POPUP_TIMEOUT_MS known).

(** X12. The budget is [timeout / POLL_INTERVAL_MS]; the tick counter is an
    integer, so it is above the budget exactly when it is above the floor
    of that quotient. A session that, once the gate has resolved, finds the
    popup open with a readable hash that is not known at every poll is
    rejected with the timeout error on the first tick whose count is above
    [floor (timeout / POLL_INTERVAL_MS)], and is pending before. Sessions in
    which a read of the hash throws are not covered. *)
Theorem monitorPopupForHash_budget_floor (popupWindow : Window) (timeout : Q)
    (ws : list Surface) :
  (0 < POLL_INTERVAL_MS)%Q ->
  Forall (fun w => idle known w = true) ws ->
  let s := monitor popupWindow timeout (GateResolves :: map PollElapsed ws) in
  let budget := Qfloor (timeout / POLL_INTERVAL_MS) in
  (forall n : nat,
      ticks_gt n (maxTicksOf POLL_INTERVAL_MS timeout) = true
      <-> (budget < Z.of_nat n)%Z) /\
  (promise s = Rejected MonitorPopupTimeoutError
   <-> exists n, 1 <= n <= length ws /\ (budget < Z.of_nat n)%Z) /\
  (promise s = Rejected MonitorPopupTimeoutError ->
   (budget < Z.of_nat (ticks s))%Z /\
   forall n, 1 <= n < ticks s -> (Z.of_nat n <= budget)%Z) /\
  (promise s = Pending \/ promise s = Rejected MonitorPopupTimeoutError).
Proof.
  intros _ Hidle. cbn zeta.
  destruct (monitor_idle POLL_INTERVAL_MS DEFAULT_POPUP_TIMEOUT_MS known
              popupWindow timeout ws Hidle) as (Hlt & Hge).
  cbn zeta in Hlt, Hge.
  set (s := monitor popupWindow timeout (GateResolves :: map PollElapsed ws)) in *.
  clearbody s.
  assert (HT : timeoutTick POLL_INTERVAL_MS timeout =
               Z.to_nat (Z.max 1 (Qfloor (timeout / POLL_INTERVAL_MS) + 1)))
    by reflexivity.
  split; [intros n; apply ticks_gt_floor|].
  destruct (Nat.lt_ge_cases (length ws) (timeoutTick POLL_INTERVAL_MS timeout))
    as [Hcase | Hcase].
  - destruct (Hlt Hcase) as (H1 & H2 & H3 & _). rewrite H3.
    split; [|split]; [| easy | now left].
    split; [easy|]. intros (n & Hn & Hb). lia.
  - destruct (Hge Hcase) as (H1 & H2 & H3 & _). rewrite H3, H1.
    split; [|split]; [| | now right].
    + split; [|easy]. intros _.
      exists (timeoutTick POLL_INTERVAL_MS timeout). lia.
    + intros _. split; [lia|]. intros n Hn. lia.
Qed.

(** C3. On a tick that finds the popup closed and its hash known alike,
    the closed check comes first: the promise is rejected with the
    user-cancelled error, the hash is not read, and the promise is not
    resolved, whatever follows. *)
Theorem monitorPopupForHash_closed_first (popupWindow : Window) (timeout : Q)
    (evs later : list Event) (w : Surface) (h : string) :
  timer (monitor popupWindow timeout evs) = TimerActive ->
  closed w = true -> location_hash w = Some h -> known h = true ->
  let s0 := monitor popupWindow timeout evs in
  let s := monitor popupWindow timeout (evs ++ PollElapsed w :: later) in
  promise s = Rejected UserCancelledError /\
  promise s <> Fulfilled h /\
  trace s = trace s0 ++ [ReadClosed; CleanPopup None; ClearInterval;
                         Reject UserCancelledError].
Proof.
  intros Ht Hc _ _. cbn zeta. rewrite monitor_app.
  rewrite step_closed; [now cbn | apply monitor_wellFormed | exact Ht | exact Hc].
Qed.

(** X13. When every poll after the gate finds the popup open with a readable
    hash that is not known, the promise is rejected with the timeout error
    exactly when the tick counter is above the budget; the cleanup is then
    called with the popup (which ends up closed) and the interval cleared
    before the rejection. With a timeout of 6000 and an interval of 2000
    the promise is pending through tick 3 and rejected on tick 4. Sessions
    in which a read of the hash throws are not covered. *)
Theorem monitorPopupForHash_timeout (popupWindow : Window) (timeout : Q)
    (ws : list Surface) :
  (0 < POLL_INTERVAL_MS)%Q ->
  Forall (fun w => idle known w = true) ws ->
  let s := monitor popupWindow timeout (GateResolves :: map PollElapsed ws) in
  let s2 := monitorPopupForHash 2000 DEFAULT_POPUP_TIMEOUT_MS known
              popupWindow 6000 (GateResolves :: map PollElapsed ws) in
  (promise s = Rejected MonitorPopupTimeoutError
   <-> 1 <= ticks s /\
       ticks_gt (ticks s) (maxTicksOf POLL_INTERVAL_MS timeout) = true) /\
  (promise s = Rejected MonitorPopupTimeoutError ->
   popupClosed s = true /\ closeCalls s = 1 /\ timer s = TimerCleared /\
   exists pre,
     trace s = pre ++ [CleanPopup (Some popupWindow); ClearInterval;
                       Reject MonitorPopupTimeoutError] /\
     Forall (fun e => calm e = true) pre) /\
  (promise s <> Rejected MonitorPopupTimeoutError ->
   promise s = Pending /\ ticks s = length ws) /\
  (length ws <= 3 -> promise s2 = Pending) /\
  (4 <= length ws ->
   promise s2 = Rejected MonitorPopupTimeoutError /\ ticks s2 = 4).
Proof.
  intros _ Hidle. cbn zeta.
  destruct (monitor_idle 2000 DEFAULT_POPUP_TIMEOUT_MS known
              popupWindow 6000 ws Hidle) as (Hlt2 & Hge2).
  destruct (monitor_idle POLL_INTERVAL_MS DEFAULT_POPUP_TIMEOUT_MS known
              popupWindow timeout ws Hidle) as (Hlt & Hge).
  cbn zeta in Hlt, Hge, Hlt2, Hge2.
  change (timeoutTick 2000 6000) with 4 in Hlt2, Hge2.
  set (s := monitor popupWindow timeout (GateResolves :: map PollElapsed ws)) in *.
  clearbody s.
  pose proof (timeoutTick_pos POLL_INTERVAL_MS timeout) as HT.
  repeat split.
  - destruct (Nat.lt_ge_cases (length ws) (timeoutTick POLL_INTERVAL_MS timeout))
      as [Hcase | Hcase].
    + destruct (Hlt Hcase) as (_ & _ & H3 & _). congruence.
    + destruct (Hge Hcase) as (H1 & _). lia.
  - destruct (Nat.lt_ge_cases (length ws) (timeoutTick POLL_INTERVAL_MS timeout))
      as [Hcase | Hcase].
    + destruct (Hlt Hcase) as (_ & _ & H3 & _). congruence.
    + destruct (Hge Hcase) as (H1 & _). rewrite H1.
      apply timeoutTick_first; lia.
  - intros (Hpos & Hgt).
    destruct (Nat.lt_ge_cases (length ws) (timeoutTick POLL_INTERVAL_MS timeout))
      as [Hcase | Hcase].
    + destruct (Hlt Hcase) as (H1 & _).
      apply timeoutTick_first in Hgt; [lia | exact Hpos].
    + now destruct (Hge Hcase) as (_ & _ & H3 & _).
  - destruct (Nat.lt_ge_cases (length ws) (timeoutTick POLL_INTERVAL_MS timeout))
      as [Hcase | Hcase].
    + destruct (Hlt Hcase) as (_ & _ & H3 & _). congruence.
    + now destruct (Hge Hcase) as (_ & _ & _ & H4 & _).
  - destruct (Nat.lt_ge_cases (length ws) (timeoutTick POLL_INTERVAL_MS timeout))
      as [Hcase | Hcase].
    + destruct (Hlt Hcase) as (_ & _ & H3 & _). congruence.
    + now destruct (Hge Hcase) as (_ & _ & _ & _ & H5 & _).
  - destruct (Nat.lt_ge_cases (length ws) (timeoutTick POLL_INTERVAL_MS timeout))
      as [Hcase | Hcase].
    + destruct (Hlt Hcase) as (_ & _ & H3 & _). congruence.
    + now destruct (Hge Hcase) as (_ & H2 & _).
  - destruct (Nat.lt_ge_cases (length ws) (timeoutTick POLL_INTERVAL_MS timeout))
      as [Hcase | Hcase].
    + destruct (Hlt Hcase) as (_ & _ & H3 & _). congruence.
    + now destruct (Hge Hcase) as (_ & _ & _ & _ & _ & H6).
  - destruct (Nat.lt_ge_cases (length ws) (timeoutTick POLL_INTERVAL_MS timeout))
      as [Hcase | Hcase].
    + now destruct (Hlt Hcase) as (_ & _ & H3 & _).
    + destruct (Hge Hcase) as (_ & _ & H3 & _). congruence.
  - destruct (Nat.lt_ge_cases (length ws) (timeoutTick POLL_INTERVAL_MS timeout))
      as [Hcase | Hcase].
    + now destruct (Hlt Hcase) as (H1 & _).
    + destruct (Hge Hcase) as (_ & _ & H3 & _). congruence.
  - intros Hle. apply Hlt2. lia.
  - now destruct (Hge2 H) as (_ & _ & H3 & _).
  - now destruct (Hge2 H) as (H1 & _).
Qed.

(** C6. When, after the gate, the polls find the popup open without a
    known hash and then, on a tick within the budget, open with a known
    hash, the promise is resolved with exactly the hash read on that tick;
    the cleanup is called with the popup, which ends up closed, and the
    interval is cleared before the promise is resolved, so nothing that
    follows changes the outcome. With a timeout of 6000 and an interval of
    2000, a known hash on tick 2 resolves the promise on tick 2: ticks 3
    and 4 never run. *)
Theorem monitorPopupForHash_success (popupWindow : Window) (timeout : Q)
    (ws : list Surface) (w w1 : Surface) (h : string) (later : list Event) :
  (0 < POLL_INTERVAL_MS)%Q ->
  Forall (fun w => quiet known w = true) ws ->
  ticks_gt (S (length ws)) (maxTicksOf POLL_INTERVAL_MS timeout) = false ->
  closed w = false -> location_hash w = Some h -> known h = true ->
  quiet known w1 = true ->
  let s := monitor popupWindow timeout
             (GateResolves :: map PollElapsed (ws ++ [w]) ++ later) in
  let s2 := monitorPopupForHash 2000 DEFAULT_POPUP_TIMEOUT_MS known
              popupWindow 6000
              (GateResolves :: PollElapsed w1 :: PollElapsed w :: later) in
  (promise s = Fulfilled h /\ ticks s = S (length ws) /\
   timer s = TimerCleared /\ popupClosed s = true /\ closeCalls s = 1 /\
   exists pre,
     trace s = pre ++ [CleanPopup (Some popupWindow); ClearInterval; Resolve h] /\
     Forall (fun e => calm e = true) pre) /\
  (promise s2 = Fulfilled h /\ ticks s2 = 2 /\ timer s2 = TimerCleared).
Proof.
  intros _ Hq Hb Hc Hh Hk Hq1. cbn zeta.
  assert (Hgen : forall P T l,
    Forall (fun w => quiet known w = true) l ->
    ticks_gt (S (length l)) (maxTicksOf P T) = false ->
    let s := monitorPopupForHash P DEFAULT_POPUP_TIMEOUT_MS known popupWindow T
               (GateResolves :: map PollElapsed (l ++ [w]) ++ later) in
    promise s = Fulfilled h /\ ticks s = S (length l) /\
    timer s = TimerCleared /\ popupClosed s = true /\ closeCalls s = 1 /\
    exists pre,
      trace s = pre ++ [CleanPopup (Some popupWindow); ClearInterval; Resolve h] /\
      Forall (fun e => calm e = true) pre).
  { intros P T l Hl Hbl. cbn zeta.
    destruct (monitor_quiet P DEFAULT_POPUP_TIMEOUT_MS known popupWindow T l Hl)
      as (Hwf & Q1 & Q2 & Q3 & Q4 & Q5).
    { right. apply ticks_within_mono with (2 := Hbl). lia. }
    rewrite map_app, <- app_assoc, app_comm_cons, monitor_app.
    cbn [map app].
    set (s1 := monitorPopupForHash P DEFAULT_POPUP_TIMEOUT_MS known popupWindow T
                 (GateResolves :: map PollElapsed l)) in *.
    clearbody s1.
    rewrite (step_known P known popupWindow T s1 w h later) by easy.
    cbn. rewrite Q1, Q4, Q5. repeat split.
    exists (trace s1 ++ [ReadClosed; ReadHash]).
    rewrite <- app_assoc. split; [easy|].
    apply Forall_app. split; [|now repeat constructor].
    unfold wellFormed in Hwf. rewrite Q2 in Hwf. easy. }
  split.
  - apply (Hgen POLL_INTERVAL_MS timeout ws Hq Hb).
  - destruct (Hgen 2000%Q 6000%Q [w1]) as (H1 & H2 & H3 & _).
    + now repeat constructor.
    + reflexivity.
    + cbn [map app length] in H1, H2, H3. easy.
Qed.

(** C7. When a tick finds the popup closed (the interval still runs, so no
    known hash was seen before), the promise is rejected with the
    user-cancelled error. The cleanup is called without the handle: it
    never calls [close] on the popup, on this tick or before. *)
Theorem monitorPopupForHash_cancelled (popupWindow : Window) (timeout : Q)
    (evs later : list Event) (w : Surface) :
  timer (monitor popupWindow timeout evs) = TimerActive ->
  closed w = true ->
  let s0 := monitor popupWindow timeout evs in
  let s := monitor popupWindow timeout (evs ++ PollElapsed w :: later) in
  promise s = Rejected UserCancelledError /\
  trace s = trace s0 ++ [ReadClosed; CleanPopup None; ClearInterval;
                         Reject UserCancelledError] /\
  Forall (fun e => isCleanPopup e = false) (trace s0) /\
  closeCalls s = 0 /\ popupClosed s = true /\ timer s = TimerCleared.
Proof.
  intros Ht Hc. cbn zeta.
  pose proof (monitor_wellFormed POLL_INTERVAL_MS DEFAULT_POPUP_TIMEOUT_MS
                known popupWindow timeout evs) as Hwf.
  rewrite monitor_app.
  rewrite step_closed; [| exact Hwf | exact Ht | exact Hc]. cbn.
  repeat split.
  unfold wellFormed in Hwf. rewrite Ht in Hwf.
  destruct Hwf as (_ & _ & _ & Htr).
  eapply Forall_impl; [exact Htr|]. now intros [].
Qed.

(** C9. A tick that finds the popup closed leaves the counter as it is and
    does not read the hash: it reads [closed], cleans up, stops the
    interval and rejects. A tick that finds the popup open adds one to the
    counter, whatever the hash read gives: a known hash (the promise is
    then resolved), another hash, or an exception. *)
Theorem monitorPopupForHash_tick_count (popupWindow : Window) (timeout : Q)
    (evs : list Event) (w : Surface) :
  timer (monitor popupWindow timeout evs) = TimerActive ->
  let s0 := monitor popupWindow timeout evs in
  let s := monitor popupWindow timeout (evs ++ [PollElapsed w]) in
  (closed w = true ->
   ticks s = ticks s0 /\
   trace s = trace s0 ++ [ReadClosed; CleanPopup None; ClearInterval;
                          Reject UserCancelledError]) /\
  (closed w = false ->
   ticks s = S (ticks s0) /\
   (forall h, location_hash w = Some h -> known h = true ->
              promise s = Fulfilled h)).
Proof.
  intros Ht. cbn zeta.
  pose proof (monitor_wellFormed POLL_INTERVAL_MS DEFAULT_POPUP_TIMEOUT_MS
                known popupWindow timeout evs) as Hwf.
  rewrite monitor_app.
  set (s0 := monitor popupWindow timeout evs) in *. clearbody s0.
  split; intros Hc.
  - rewrite step_closed; [now cbn | exact Hwf | exact Ht | exact Hc].
  - cbn [fold_left]. rewrite step_poll_open by easy.
    destruct (location_hash w) as [h|] eqn:Hh.
    + destruct (known h) eqn:Hk.
      * rewrite (tick_known _ _ _ w h) by easy. cbn.
        split; [easy|]. intros h' [= <-] _.
        unfold wellFormed in Hwf. rewrite Ht in Hwf.
        destruct Hwf as (_ & -> & _). easy.
      * destruct (ticks_gt (S (ticks s0)) (maxTicksOf POLL_INTERVAL_MS timeout))
          eqn:Hgt.
        -- rewrite (tick_timeout _ _ _ w h) by easy. cbn.
           split; [easy|]. intros h' [= <-] Hk'. congruence.
        -- rewrite (tick_idle _ _ _ w h) by easy. cbn.
           split; [easy|]. intros h' [= <-] Hk'. congruence.
    + rewrite tick_throws by easy. cbn. split; [easy|]. intros h' [=].
Qed.

End OutcomeClaims.

(** ** What the specification says of the launcher *)

Section LauncherClaims.

Variable isEmpty : string -> bool.
Variable generateCacheKey : string -> string.
Variable INTERACTION_STATUS_KEY : string.
Variable INTERACTION_IN_PROGRESS_VALUE : string.

Local Abbreviation initiate :=
  (initiateAuthRequest isEmpty generateCacheKey INTERACTION_STATUS_KEY
                       INTERACTION_IN_PROGRESS_VALUE).

(** C8. For an empty url [initiateAuthRequest] throws the empty-url error:
    the cache (so the interaction flag) and the windows are as before, and
    the one call made is the error log. For a url that is not empty it
    sets the interaction flag to in-progress, then logs, then opens the
    popup, and returns the handle [openPopup] gives: the window behind it
    is at the url. *)
Theorem initiateAuthRequest_launch (requestUrl : string) (params : PopupParams)
    (b : Browser) :
  let b' := fst (initiate requestUrl params b) in
  let r := snd (initiate requestUrl params b) in
  (isEmpty requestUrl = true ->
   r = inl EmptyNavigationUriError /\
   temporaryCache b' = temporaryCache b /\ popups b' = popups b /\
   history b' = history b ++ [LogError "Navigate url is empty"]) /\
  (isEmpty requestUrl = false ->
   let w := match popup params with
            | Some w0 => w0
            | None => length (popups b)
            end in
   r = inr w /\
   interactionStatus generateCacheKey INTERACTION_STATUS_KEY b'
     = Some INTERACTION_IN_PROGRESS_VALUE /\
   history b' =
     history b ++
     [SetTemporaryCache INTERACTION_STATUS_KEY INTERACTION_IN_PROGRESS_VALUE true;
      InfoPii ("Navigate to:" ++ requestUrl);
      OpenPopup requestUrl (popupName params) (popup params)] /\
   (popup params = None ->
    popups b' !! w = Some (mkPopup (popupName params) requestUrl)) /\
   (forall p, popups b' !! w = Some p -> href p = requestUrl)).
Proof.
  cbn zeta. unfold initiateAuthRequest. split; intros He; rewrite He; cbn.
  - easy.
  - unfold interactionStatus.
    destruct (popup params) as [w0|] eqn:Hp; cbn.
    + rewrite lookup_insert_eq, <- !app_assoc. repeat split; try easy.
      intros p. rewrite list_lookup_alter_eq.
      now intros (q & _ & ->)%fmap_Some.
    + rewrite lookup_insert_eq, <- !app_assoc. repeat split; try easy.
      * intros _. apply list_lookup_middle. easy.
      * intros p. rewrite list_lookup_middle by easy. now intros [= <-].
Qed.

End LauncherClaims.

(** ** Examples

    An interval of 2000, a default timeout of 60000, a timeout of 6000
    (a budget of 3 ticks), and popup number 0. *)

(** The popup stays on another origin for five polls, longer than the whole
    budget, then comes back and redirects. *)
Lemma monitorPopupForHash_gate_first_witness :
  let s := monitorPopupForHash 2000 60000 knownCode 0 6000
             [PollElapsed elsewhere; GateRejects; PollElapsed gone] in
  (ticks s = 0 /\ timer s = TimerUnset /\ promise s = Pending /\
   Forall (fun e => e = LogWarning) (trace s)) /\
  monitorSurface 2000 60000 knownCode 0 6000
    ([elsewhere; elsewhere; elsewhere; elsewhere; elsewhere] ++ [loading; redirected])
  = monitorSurface 2000 60000 knownCode 0 6000 [loading; redirected] /\
  (let s := monitorSurface 2000 60000 knownCode 0 6000
              [elsewhere; elsewhere; elsewhere; elsewhere; elsewhere] in
   ticks s = 0 /\ timer s = TimerUnset /\ promise s = Pending).
Proof.
  apply (monitorPopupForHash_gate_first 2000 60000 knownCode 0 6000
           [PollElapsed elsewhere; GateRejects; PollElapsed gone]
           [elsewhere; elsewhere; elsewhere; elsewhere; elsewhere]
           [loading; redirected]).
  - repeat (constructor; try discriminate).
  - repeat (constructor; try reflexivity).
Defined.

Lemma monitorPopupForHash_budget_floor_witness :
  let s := monitorPopupForHash 2000 60000 knownCode 0 6000
             (GateResolves :: map PollElapsed [loading; loading; loading; loading]) in
  promise s = Rejected MonitorPopupTimeoutError
  <-> exists n, 1 <= n <= 4 /\ (Qfloor (6000 / 2000) < Z.of_nat n)%Z.
Proof.
  apply (monitorPopupForHash_budget_floor 2000 60000 knownCode 0 6000
           [loading; loading; loading; loading]).
  - reflexivity.
  - repeat (constructor; try reflexivity).
Defined.

Lemma monitorPopupForHash_closed_first_witness :
  promise (monitorPopupForHash 2000 60000 knownCode 0 6000
             ([GateResolves; PollElapsed loading] ++
              PollElapsed gone :: [PollElapsed redirected]))
  = Rejected UserCancelledError.
Proof.
  apply (monitorPopupForHash_closed_first 2000 60000 knownCode 0 6000
           [GateResolves; PollElapsed loading] [PollElapsed redirected]
           gone "#code=abc"); reflexivity.
Defined.

Lemma monitorPopupForHash_timeout_witness :
  let s := monitorPopupForHash 2000 60000 knownCode 0 6000
             (GateResolves :: map PollElapsed [loading; loading; loading; loading]) in
  promise s = Rejected MonitorPopupTimeoutError
  <-> 1 <= ticks s /\ ticks_gt (ticks s) (maxTicksOf 2000 6000) = true.
Proof.
  apply (monitorPopupForHash_timeout 2000 60000 knownCode 0 6000
           [loading; loading; loading; loading]).
  - reflexivity.
  - repeat (constructor; try reflexivity).
Defined.

Lemma monitorPopupForHash_success_witness :
  let s := monitorPopupForHash 2000 60000 knownCode 0 6000
             (GateResolves :: map PollElapsed ([elsewhere] ++ [redirected]) ++
              [PollElapsed loading; PollElapsed loading]) in
  promise s = Fulfilled "#code=abc" /\ ticks s = 2 /\
  timer s = TimerCleared /\ popupClosed s = true /\ closeCalls s = 1 /\
  exists pre,
    trace s = pre ++ [CleanPopup (Some 0); ClearInterval; Resolve "#code=abc"] /\
    Forall (fun e => calm e = true) pre.
Proof.
  apply (monitorPopupForHash_success 2000 60000 knownCode 0 6000
           [elsewhere] redirected loading "#code=abc"
           [PollElapsed loading; PollElapsed loading]);
    try reflexivity.
  repeat (constructor; try reflexivity).
Defined.

Lemma monitorPopupForHash_cancelled_witness :
  let s := monitorPopupForHash 2000 60000 knownCode 0 6000
             ([GateResolves; PollElapsed loading] ++
              PollElapsed (mkSurface true None) :: []) in
  promise s = Rejected UserCancelledError /\ closeCalls s = 0.
Proof.
  destruct (monitorPopupForHash_cancelled 2000 60000 knownCode 0 6000
              [GateResolves; PollElapsed loading] [] (mkSurface true None))
    as (H1 & _ & _ & H4 & _); [reflexivity | reflexivity |].
  exact (conj H1 H4).
Defined.

Lemma monitorPopupForHash_tick_count_witness :
  ticks (monitorPopupForHash 2000 60000 knownCode 0 6000
           ([GateResolves; PollElapsed loading] ++ [PollElapsed redirected]))
  = S (ticks (monitorPopupForHash 2000 60000 knownCode 0 6000
                [GateResolves; PollElapsed loading])).
Proof.
  apply (monitorPopupForHash_tick_count 2000 60000 knownCode 0 6000
           [GateResolves; PollElapsed loading] redirected); reflexivity.
Defined.

Lemma monitorPopupForHash_gate_rejected_witness :
  let s := monitorPopupForHash 2000 60000 knownCode 0 6000
             ([PollElapsed elsewhere] ++
              GateRejects :: [GateResolves; PollElapsed redirected]) in
  gate s = GateRejected /\ promise s = Pending /\ timer s = TimerUnset /\
  ticks s = 0 /\ Forall (fun e => e = LogWarning) (trace s).
Proof.
  apply (monitorPopupForHash_gate_rejected 2000 60000 knownCode 0 6000
           [PollElapsed elsewhere] [GateResolves; PollElapsed redirected]).
  repeat (constructor; try discriminate).
Defined.

Lemma initiateAuthRequest_launch_witness :
  snd (initiateAuthRequest emptyString cacheKey "interaction.status"
         "interaction_in_progress" EmptyString (mkPopupParams None "popup")
         (mkBrowser ∅ [] [] []))
  = inl EmptyNavigationUriError /\
  snd (initiateAuthRequest emptyString cacheKey "interaction.status"
         "interaction_in_progress" "https://login.example/authorize"
         (mkPopupParams None "popup") (mkBrowser ∅ [] [] []))
  = inr 0.
Proof.
  split.
  - apply (initiateAuthRequest_launch emptyString cacheKey "interaction.status"
             "interaction_in_progress" EmptyString (mkPopupParams None "popup")
             (mkBrowser ∅ [] [] [])).
    reflexivity.
  - apply (initiateAuthRequest_launch emptyString cacheKey "interaction.status"
             "interaction_in_progress" "https://login.example/authorize"
             (mkPopupParams None "popup") (mkBrowser ∅ [] [] [])).
    reflexivity.
Defined.

(** After the gate has resolved, a popup that goes back to another origin is
    still counted: the counter moves before the read throws. Here the popup
    is away on ticks 2 to 4, and tick 5, the first that can read the hash
    again, times out. *)
Example cross_origin_after_gate_is_counted :
  let s := monitorSurface 2000 60000 knownCode 0 6000
             [loading; loading; elsewhere; elsewhere; elsewhere; loading] in
  ticks s = 5 /\ promise s = Rejected MonitorPopupTimeoutError.
Proof. now vm_compute. Qed.

(** * Further properties of the monitor *)

(** ** Two sessions side by side *)

Section SideBySide.

Variable known : string -> bool.
Variable popupWindow : Window.

Lemma sameState_refl (s : Session) : sameState s s.
Proof. now repeat split. Qed.

Lemma observe_sameState (w : Surface) (s1 s2 : Session) :
  sameState s1 s2 -> sameState (observe w s1) (observe w s2).
Proof.
  intros (Ht & Hg & Hi & Hp & Hc & Hn). unfold sameState. cbn.
  rewrite Hc. now repeat split.
Qed.

(** In the same state and under the same budget a tick does the same to
    both sessions: the same calls, the same state after. *)
Lemma tick_sameState (maxTicks : Q) (w : Surface) (s1 s2 : Session) :
  sameState s1 s2 ->
  exists suffix,
    Forall (fun e => isWarning e = false) suffix /\
    trace (exec (onTick known popupWindow maxTicks w) s1) = trace s1 ++ suffix /\
    trace (exec (onTick known popupWindow maxTicks w) s2) = trace s2 ++ suffix /\
    sameState (exec (onTick known popupWindow maxTicks w) s1)
              (exec (onTick known popupWindow maxTicks w) s2).
Proof.
  intros (Ht & Hg & Hi & Hp & Hc & Hn).
  destruct (closed w) eqn:Hcl.
  - rewrite !tick_closed by exact Hcl.
    exists [ReadClosed; CleanPopup None; ClearInterval; Reject UserCancelledError].
    unfold sameState. cbn. rewrite Hp. repeat split; try easy.
    now repeat constructor.
  - destruct (location_hash w) as [h|] eqn:Hh.
    + destruct (known h) eqn:Hk.
      * rewrite !(tick_known _ _ _ w h) by easy.
        exists [ReadClosed; ReadHash; CleanPopup (Some popupWindow);
                ClearInterval; Resolve h].
        unfold sameState. cbn. rewrite Hp, Hc, Hn, Ht. repeat split; try easy.
        now repeat constructor.
      * destruct (ticks_gt (S (ticks s1)) maxTicks) eqn:Hgt.
        -- rewrite (tick_timeout _ _ _ w h s1) by easy.
           rewrite (tick_timeout _ _ _ w h s2) by (try easy; now rewrite <- Ht).
           exists [ReadClosed; ReadHash; CleanPopup (Some popupWindow);
                   ClearInterval; Reject MonitorPopupTimeoutError].
           unfold sameState. cbn. rewrite Hp, Hc, Hn, Ht. repeat split; try easy.
           now repeat constructor.
        -- rewrite (tick_idle _ _ _ w h s1) by easy.
           rewrite (tick_idle _ _ _ w h s2) by (try easy; now rewrite <- Ht).
           exists [ReadClosed; ReadHash].
           unfold sameState. cbn. rewrite Ht. repeat split; try easy.
           now repeat constructor.
    + rewrite !tick_throws by easy.
      exists [ReadClosed; ReadHash; Thrown].
      unfold sameState. cbn. rewrite Ht. repeat split; try easy.
      now repeat constructor.
Qed.

Lemma step_sameState (maxTicks : Q) (ev : Event) (s1 s2 : Session) :
  sameState s1 s2 ->
  exists suffix,
    Forall (fun e => isWarning e = false) suffix /\
    trace (step known popupWindow maxTicks s1 ev) = trace s1 ++ suffix /\
    trace (step known popupWindow maxTicks s2 ev) = trace s2 ++ suffix /\
    sameState (step known popupWindow maxTicks s1 ev)
              (step known popupWindow maxTicks s2 ev).
Proof.
  intros Hs. pose proof Hs as (Ht & Hg & Hi & Hp & Hc & Hn).
  destruct ev as [| |w]; cbn [step].
  - rewrite <- Hg. destruct (gate s1) eqn:Eg.
    + exists [SetInterval]. unfold sameState. cbn.
      repeat split; try easy. now repeat constructor.
    + exists []. rewrite !app_nil_r. repeat split; first [congruence | constructor].
    + exists []. rewrite !app_nil_r. repeat split; first [congruence | constructor].
  - rewrite <- Hg. destruct (gate s1) eqn:Eg.
    + exists []. rewrite !app_nil_r. unfold sameState. cbn.
      repeat split; first [congruence | constructor].
    + exists []. rewrite !app_nil_r. repeat split; first [congruence | constructor].
    + exists []. rewrite !app_nil_r. repeat split; first [congruence | constructor].
  - pose proof (observe_sameState w s1 s2 Hs) as Ho.
    destruct (observe_fields w s1) as (_ & _ & T1 & _ & _ & R1 & _).
    destruct (observe_fields w s2) as (_ & _ & T2 & _ & _ & R2 & _).
    rewrite T1, T2, <- Hi.
    destruct (timer s1) eqn:Ei.
    + exists []. rewrite !app_nil_r.
      split; [constructor|]. split; [exact R1|]. split; [exact R2 | exact Ho].
    + destruct (tick_sameState maxTicks w _ _ Ho) as (suffix & F & E1 & E2 & S').
      exists suffix. rewrite E1, E2, R1, R2.
      split; [exact F|]. split; [reflexivity|]. split; [reflexivity | exact S'].
    + exists []. rewrite !app_nil_r.
      split; [constructor|]. split; [exact R1|]. split; [exact R2 | exact Ho].
Qed.

End SideBySide.

(** ** The warning, the outcomes, the cleanup *)

Section Shape.

Variable known : string -> bool.
Variable popupWindow : Window.
Variable maxTicks : Q.

Local Abbreviation run evs s := (fold_left (step known popupWindow maxTicks) evs s).

Lemma no_warning (tr : list Effect) :
  Forall (fun e => isWarning e = false) tr -> List.filter isWarning tr = [].
Proof.
  induction 1 as [|e tr He _ IH]; cbn; [easy|]. now rewrite He.
Qed.

Lemma only_warning (tr : list Effect) :
  Forall (fun e => isWarning e = false) tr ->
  List.filter (fun e => negb (isWarning e)) tr = tr.
Proof.
  induction 1 as [|e tr He _ IH]; cbn; [easy|]. now rewrite He, IH.
Qed.

(** Sessions in the same state stay so under the same events; their traces
    grow by the same calls, none of them a warning. *)
Lemma run_sameState (evs : list Event) (s1 s2 : Session) :
  sameState s1 s2 ->
  sameState (run evs s1) (run evs s2) /\
  List.filter isWarning (trace (run evs s1)) = List.filter isWarning (trace s1) /\
  (List.filter (fun e => negb (isWarning e)) (trace s1) =
   List.filter (fun e => negb (isWarning e)) (trace s2) ->
   List.filter (fun e => negb (isWarning e)) (trace (run evs s1)) =
   List.filter (fun e => negb (isWarning e)) (trace (run evs s2))).
Proof.
  revert s1 s2. induction evs as [|ev evs IH]; intros s1 s2 Hs; cbn [fold_left].
  - easy.
  - destruct (step_sameState known popupWindow maxTicks ev s1 s2 Hs)
      as (suffix & F & E1 & E2 & Hs').
    destruct (IH _ _ Hs') as (I1 & I2 & I3).
    split; [exact I1|]. split.
    + rewrite I2, E1, List.filter_app, (no_warning suffix F). apply app_nil_r.
    + intros Heq. apply I3. rewrite E1, E2, !List.filter_app. now rewrite Heq.
Qed.

Lemma calm_no_cleanup (tr : list Effect) :
  Forall (fun e => calm e = true) tr -> List.filter isCleanPopup tr = [].
Proof.
  induction 1 as [|e tr He _ IH]; cbn; [easy|].
  destruct e; cbn in *; easy.
Qed.

(** A tick that clears the interval leaves the trace in the settled shape. *)
Lemma tick_settledShape (s : Session) (w : Surface) :
  wellFormed s -> timer s = TimerActive ->
  settledShape known popupWindow (exec (onTick known popupWindow maxTicks w) s).
Proof.
  intros Hwf Ht. unfold wellFormed in Hwf. rewrite Ht in Hwf.
  destruct Hwf as (_ & Hp & _ & Htr).
  destruct (closed w) eqn:Hcl.
  - rewrite tick_closed by exact Hcl. unfold settledShape. cbn.
    exists (trace s ++ [ReadClosed]), None, (Reject UserCancelledError).
    rewrite <- app_assoc, Hp. repeat split; try easy; [|now left].
    apply Forall_app. split; [exact Htr | now repeat constructor].
  - destruct (location_hash w) as [h|] eqn:Hh.
    + destruct (known h) eqn:Hk.
      * rewrite (tick_known _ _ _ w h) by easy. unfold settledShape. cbn.
        exists (trace s ++ [ReadClosed; ReadHash]), (Some popupWindow), (Resolve h).
        rewrite <- app_assoc, Hp. repeat split; try easy.
        -- apply Forall_app. split; [exact Htr | now repeat constructor].
        -- right. split; [easy|]. right. now exists h.
      * destruct (ticks_gt (S (ticks s)) maxTicks) eqn:Hgt.
        -- rewrite (tick_timeout _ _ _ w h) by easy. unfold settledShape. cbn.
           exists (trace s ++ [ReadClosed; ReadHash]), (Some popupWindow),
             (Reject MonitorPopupTimeoutError).
           rewrite <- app_assoc, Hp. repeat split; try easy.
           ++ apply Forall_app. split; [exact Htr | now repeat constructor].
           ++ right. split; [easy|]. now left.
        -- rewrite (tick_idle _ _ _ w h) by easy. unfold settledShape. cbn.
           now rewrite Ht.
    + rewrite tick_throws by easy. unfold settledShape. cbn. now rewrite Ht.
Qed.

Lemma step_settledShape (s : Session) (ev : Event) :
  wellFormed s -> settledShape known popupWindow s ->
  settledShape known popupWindow (step known popupWindow maxTicks s ev).
Proof.
  intros Hwf Hs. destruct (timer s) eqn:Ht.
  - unfold settledShape. destruct ev as [| |w]; cbn [step].
    + destruct (gate s); cbn; now rewrite ?Ht.
    + destruct (gate s); cbn; now rewrite ?Ht.
    + destruct (observe_fields w s) as (_ & _ & T & _). rewrite T, Ht, T, Ht. easy.
  - pose proof Hwf as Hwf'. unfold wellFormed in Hwf'. rewrite Ht in Hwf'.
    destruct Hwf' as (Hg & _).
    destruct ev as [| |w]; cbn [step].
    + now rewrite Hg.
    + now rewrite Hg.
    + destruct (observe_fields w s) as (_ & _ & T & _). rewrite T, Ht.
      apply tick_settledShape; [now apply observe_wellFormed | congruence].
  - now rewrite step_cleared.
Qed.

Lemma run_settledShape (evs : list Event) (s : Session) :
  wellFormed s -> settledShape known popupWindow s ->
  settledShape known popupWindow (run evs s).
Proof.
  revert s. induction evs as [|ev evs IH]; intros s Hwf Hs; cbn [fold_left]; [easy|].
  apply IH; [now apply step_wellFormed | now apply step_settledShape].
Qed.

(** Polls of a running interval that find the popup open on another origin:
    each moves the counter and throws; nothing else changes. *)
Lemma run_away (ws : list Surface) (s : Session) :
  timer s = TimerActive ->
  Forall (fun w => closed w = false /\ crossOrigin w = true) ws ->
  let s' := run (map PollElapsed ws) s in
  ticks s' = ticks s + length ws /\ timer s' = TimerActive /\
  gate s' = gate s /\ promise s' = promise s /\
  popupClosed s' = popupClosed s /\ closeCalls s' = closeCalls s /\
  trace s' = trace s ++ concat (map (fun _ => [ReadClosed; ReadHash; Thrown]) ws).
Proof.
  revert s. induction ws as [|w ws IH]; intros s Ht Hws; cbn -[step].
  - rewrite app_nil_r. repeat split; try easy; lia.
  - inversion Hws as [|? ? (Hc & Hx) Hws']; subst.
    unfold crossOrigin in Hx.
    destruct (location_hash w) eqn:Hh; [easy|].
    rewrite step_poll_open by easy. rewrite tick_throws by easy.
    match goal with |- context [fold_left _ _ ?s1] => set (s1' := s1) end.
    destruct (IH s1' Ht Hws') as (I1 & I2 & I3 & I4 & I5 & I6 & I7).
    cbn zeta in *. rewrite I1, I2, I3, I4, I5, I6, I7. cbn.
    rewrite <- app_assoc. repeat split; try easy; lia.
Qed.

End Shape.

(** ** What every session of the monitor satisfies *)

Section Further.

Variable POLL_INTERVAL_MS : Q.
Variable DEFAULT_POPUP_TIMEOUT_MS : Q.
Variable known : string -> bool.

Local Abbreviation monitor :=
  (monitorPopupForHash POLL_INTERVAL_MS DEFAULT_POPUP_TIMEOUT_MS known).

Lemma monitor_settledShape (popupWindow : Window) (timeout : Q) (evs : list Event) :
  settledShape known popupWindow (monitor popupWindow timeout evs).
Proof.
  apply run_settledShape; [apply executor_wellFormed|].
  unfold settledShape.
  destruct (executor_fields DEFAULT_POPUP_TIMEOUT_MS timeout) as (_ & _ & -> & _).
  easy.
Qed.

(** X1. The warning is logged once when the timeout is below the default and
    never otherwise, whatever the events; and the default has no other
    effect: with another default the session goes through the same states
    and makes the same calls apart from the warning. *)
Theorem warning_once_and_harmless (otherDefault : Q) (popupWindow : Window)
    (timeout : Q) (evs : list Event) :
  let s := monitor popupWindow timeout evs in
  let s' := monitorPopupForHash POLL_INTERVAL_MS otherDefault known
              popupWindow timeout evs in
  List.filter isWarning (trace s) =
    (if Qle_bool DEFAULT_POPUP_TIMEOUT_MS timeout then [] else [LogWarning]) /\
  sameState s s' /\
  List.filter (fun e => negb (isWarning e)) (trace s) =
  List.filter (fun e => negb (isWarning e)) (trace s').
Proof.
  cbn zeta. unfold monitorPopupForHash.
  assert (Hs : sameState (executor DEFAULT_POPUP_TIMEOUT_MS timeout)
                         (executor otherDefault timeout)).
  { unfold executor. now destruct (negb _), (negb _). }
  destruct (run_sameState known popupWindow (maxTicksOf POLL_INTERVAL_MS timeout)
              evs _ _ Hs) as (R1 & R2 & R3).
  split; [|split].
  - rewrite R2. unfold executor. now destruct (Qle_bool _ _).
  - exact R1.
  - apply R3. unfold executor. now destruct (negb _), (negb _).
Qed.

(** X2. Whatever the events, the promise is pending, resolved with a hash
    that has known properties, rejected as cancelled or rejected as timed
    out: it is never resolved with another hash nor rejected with another
    error. *)
Theorem outcome_is_valid (popupWindow : Window) (timeout : Q) (evs : list Event) :
  validOutcome known (promise (monitor popupWindow timeout evs)) = true.
Proof.
  pose proof (monitor_wellFormed POLL_INTERVAL_MS DEFAULT_POPUP_TIMEOUT_MS
                known popupWindow timeout evs) as Hwf.
  pose proof (monitor_settledShape popupWindow timeout evs) as Hsh.
  unfold wellFormed in Hwf. unfold settledShape in Hsh.
  destruct (timer (monitor popupWindow timeout evs)).
  - now destruct Hwf as (_ & _ & -> & _).
  - now destruct Hwf as (_ & -> & _).
  - destruct Hsh as (pre & c & e & _ & _ & -> & [(_ & ->) | (_ & [-> | (h & -> & Hk)])]);
      easy.
Qed.

(** X3. The cleanup is called exactly once per settled session and never
    while the promise is pending: without the handle when the session was
    cancelled, with the monitored popup when it resolved or timed out. *)
Theorem cleanup_once (popupWindow : Window) (timeout : Q) (evs : list Event) :
  let s := monitor popupWindow timeout evs in
  List.filter isCleanPopup (trace s) =
    match promise s with
    | Pending => []
    | Rejected UserCancelledError => [CleanPopup None]
    | _ => [CleanPopup (Some popupWindow)]
    end.
Proof.
  cbn zeta.
  pose proof (monitor_wellFormed POLL_INTERVAL_MS DEFAULT_POPUP_TIMEOUT_MS
                known popupWindow timeout evs) as Hwf.
  pose proof (monitor_settledShape popupWindow timeout evs) as Hsh.
  unfold wellFormed in Hwf. unfold settledShape in Hsh.
  destruct (timer (monitor popupWindow timeout evs)).
  - destruct Hwf as (_ & _ & -> & _ & Htr).
    now apply calm_no_cleanup, calm_warning.
  - destruct Hwf as (_ & -> & _ & Htr). now apply calm_no_cleanup.
  - destruct Hsh as (pre & c & e & -> & Hpre & -> & Hce).
    rewrite List.filter_app, (calm_no_cleanup pre Hpre).
    destruct Hce as [(-> & ->) | (-> & [-> | (h & -> & Hk)])]; reflexivity.
Qed.

(** X4. While the interval runs, polls that find the popup open on another
    origin are counted one by one, however far above the budget, and decide
    nothing: the read of the hash throws, the promise stays pending, the
    interval keeps running and no cleanup is done. *)
Theorem cross_origin_ticks_count (popupWindow : Window) (timeout : Q)
    (evs : list Event) (ws : list Surface) :
  timer (monitor popupWindow timeout evs) = TimerActive ->
  Forall (fun w => closed w = false /\ crossOrigin w = true) ws ->
  let s0 := monitor popupWindow timeout evs in
  let s := monitor popupWindow timeout (evs ++ map PollElapsed ws) in
  ticks s = ticks s0 + length ws /\ timer s = TimerActive /\
  promise s = Pending /\ closeCalls s = 0 /\
  trace s = trace s0 ++ concat (map (fun _ => [ReadClosed; ReadHash; Thrown]) ws).
Proof.
  intros Ht Hws. cbn zeta. rewrite monitor_app.
  pose proof (monitor_wellFormed POLL_INTERVAL_MS DEFAULT_POPUP_TIMEOUT_MS
                known popupWindow timeout evs) as Hwf.
  unfold wellFormed in Hwf. rewrite Ht in Hwf. destruct Hwf as (_ & Hp & Hc & _).
  destruct (run_away known popupWindow (maxTicksOf POLL_INTERVAL_MS timeout)
              ws _ Ht Hws) as (R1 & R2 & _ & R4 & _ & R6 & R7).
  cbn zeta in *. rewrite R1, R2, R4, R6, R7. easy.
Qed.

(** X5. The hash is checked before the budget: on a running interval a
    known hash resolves the promise even on the tick whose count is above
    the budget, the tick that would time out otherwise. *)
Theorem known_hash_beats_timeout (popupWindow : Window) (timeout : Q)
    (ws : list Surface) (w : Surface) (h : string) (later : list Event) :
  (0 < POLL_INTERVAL_MS)%Q ->
  Forall (fun w => quiet known w = true) ws ->
  ws = [] \/ ticks_gt (length ws) (maxTicksOf POLL_INTERVAL_MS timeout) = false ->
  ticks_gt (S (length ws)) (maxTicksOf POLL_INTERVAL_MS timeout) = true ->
  closed w = false -> location_hash w = Some h -> known h = true ->
  let s := monitor popupWindow timeout
             (GateResolves :: map PollElapsed (ws ++ [w]) ++ later) in
  promise s = Fulfilled h /\ ticks s = S (length ws) /\
  ticks_gt (ticks s) (maxTicksOf POLL_INTERVAL_MS timeout) = true.
Proof.
  intros _ Hq Hb Hover Hc Hh Hk. cbn zeta.
  destruct (monitor_quiet POLL_INTERVAL_MS DEFAULT_POPUP_TIMEOUT_MS known
              popupWindow timeout ws Hq Hb) as (Hwf & Q1 & Q2 & _).
  rewrite map_app, <- app_assoc, app_comm_cons, monitor_app. cbn [map app].
  set (s1 := monitor popupWindow timeout (GateResolves :: map PollElapsed ws)) in *.
  clearbody s1.
  rewrite (step_known POLL_INTERVAL_MS known popupWindow timeout s1 w h later)
    by easy.
  cbn. rewrite Q1. easy.
Qed.

End Further.

(** ** Budgets compared *)

(** A larger budget is exceeded later. *)
Lemma ticks_gt_budget_mono (n : nat) (m1 m2 : Q) :
  (m1 <= m2)%Q -> ticks_gt n m2 = true -> ticks_gt n m1 = true.
Proof.
  intros Hle. rewrite !ticks_gt_floor. apply Qfloor_resp_le in Hle. lia.
Qed.

Lemma maxTicksOf_mono (POLL_INTERVAL_MS t1 t2 : Q) :
  (0 < POLL_INTERVAL_MS)%Q -> (t1 <= t2)%Q ->
  (maxTicksOf POLL_INTERVAL_MS t1 <= maxTicksOf POLL_INTERVAL_MS t2)%Q.
Proof.
  intros Hp Hle. unfold maxTicksOf, Qdiv.
  apply Qmult_le_compat_r; [exact Hle|].
  apply Qlt_le_weak, Qinv_lt_0_compat, Hp.
Qed.

(** A timeout below the interval leaves no tick within the budget. *)
Lemma timeoutTick_short (POLL_INTERVAL_MS timeout : Q) :
  (0 < POLL_INTERVAL_MS)%Q -> (timeout < POLL_INTERVAL_MS)%Q ->
  timeoutTick POLL_INTERVAL_MS timeout = 1.
Proof.
  intros Hp Hlt. unfold timeoutTick.
  assert (Hq : (timeout / POLL_INTERVAL_MS < 1)%Q).
  { apply Qlt_shift_div_r; [exact Hp|]. now rewrite Qmult_1_l. }
  assert (Hf : (Qfloor (timeout / POLL_INTERVAL_MS) < 1)%Z).
  { rewrite Zlt_Qlt. eapply Qle_lt_trans; [apply Qfloor_le | exact Hq]. }
  lia.
Qed.

Section Budgets.

Variable known : string -> bool.
Variable popupWindow : Window.

(** Two sessions under budgets [m1 <= m2]: in the same state, or the one
    with the smaller budget has timed out. *)
Lemma tick_budgets (m1 m2 : Q) (w : Surface) (s1 s2 : Session) :
  (m1 <= m2)%Q -> promise s1 = Pending -> sameState s1 s2 ->
  sameState (exec (onTick known popupWindow m1 w) s1)
            (exec (onTick known popupWindow m2 w) s2) \/
  (promise (exec (onTick known popupWindow m1 w) s1)
     = Rejected MonitorPopupTimeoutError /\
   timer (exec (onTick known popupWindow m1 w) s1) = TimerCleared).
Proof.
  intros Hle Hpend (Ht & Hg & Hi & Hp & Hc & Hn).
  destruct (closed w) eqn:Hcl.
  - left. rewrite !tick_closed by exact Hcl.
    unfold sameState. cbn. rewrite Hp. now repeat split.
  - destruct (location_hash w) as [h|] eqn:Hh.
    + destruct (known h) eqn:Hk.
      * left. rewrite !(tick_known _ _ _ w h) by easy.
        unfold sameState. cbn. rewrite Hp, Hc, Hn, Ht. now repeat split.
      * destruct (ticks_gt (S (ticks s1)) m1) eqn:Hgt1.
        -- rewrite (tick_timeout _ _ _ w h s1) by easy.
           destruct (ticks_gt (S (ticks s2)) m2) eqn:Hgt2.
           ++ left. rewrite (tick_timeout _ _ _ w h s2) by easy.
              unfold sameState. cbn. rewrite Hp, Hc, Hn, Ht. now repeat split.
           ++ right. cbn. now rewrite Hpend.
        -- destruct (ticks_gt (S (ticks s2)) m2) eqn:Hgt2.
           ++ apply (ticks_gt_budget_mono _ m1 m2 Hle) in Hgt2. congruence.
           ++ left. rewrite (tick_idle _ _ _ w h s1), (tick_idle _ _ _ w h s2) by easy.
              unfold sameState. cbn. rewrite Ht. now repeat split.
    + left. rewrite !tick_throws by easy.
      unfold sameState. cbn. rewrite Ht. now repeat split.
Qed.

Lemma run_budgets (m1 m2 : Q) (evs : list Event) (s1 s2 : Session) :
  (m1 <= m2)%Q -> wellFormed s1 ->
  sameState s1 s2 \/
  (promise s1 = Rejected MonitorPopupTimeoutError /\ timer s1 = TimerCleared) ->
  let r1 := fold_left (step known popupWindow m1) evs s1 in
  let r2 := fold_left (step known popupWindow m2) evs s2 in
  sameState r1 r2 \/ promise r1 = Rejected MonitorPopupTimeoutError.
Proof.
  intros Hle. revert s1 s2.
  induction evs as [|ev evs IH]; intros s1 s2 Hwf Hrel; cbn [fold_left].
  - destruct Hrel as [H | (H & _)]; [now left | now right].
  - cbn zeta in IH. apply IH; [now apply step_wellFormed|].
    destruct Hrel as [Hs | (Hp & Ht)].
    + destruct ev as [| |w].
      * left.
        destruct (step_sameState known popupWindow m1 GateResolves s1 s2 Hs)
          as (_ & _ & _ & _ & H). exact H.
      * left.
        destruct (step_sameState known popupWindow m1 GateRejects s1 s2 Hs)
          as (_ & _ & _ & _ & H). exact H.
      * pose proof (observe_sameState w s1 s2 Hs) as Ho.
        pose proof (observe_wellFormed w s1 Hwf) as Hwo.
        cbn [step].
        destruct (observe_fields w s1) as (_ & _ & T1 & _).
        destruct (observe_fields w s2) as (_ & _ & T2 & _).
        destruct Hs as (_ & _ & Hi & _).
        rewrite T1, T2, <- Hi.
        destruct (timer s1) eqn:Ei; [now left | | now left].
        apply tick_budgets; [exact Hle | | exact Ho].
        unfold wellFormed in Hwo. rewrite T1 in Hwo. easy.
    + right. now rewrite step_cleared.
Qed.

(** With polls that can all decide, the counter stays below [T] while the
    interval runs and never goes above it, for [T] the first tick count
    above the budget. *)
Lemma step_ticks_bound (POLL_INTERVAL_MS timeout : Q) (s : Session) (ev : Event) :
  let T := timeoutTick POLL_INTERVAL_MS timeout in
  wellFormed s -> decisive ev = true ->
  (timer s = TimerActive -> ticks s < T) /\ ticks s <= T ->
  let s' := step known popupWindow (maxTicksOf POLL_INTERVAL_MS timeout) s ev in
  (timer s' = TimerActive -> ticks s' < T) /\ ticks s' <= T.
Proof.
  cbn zeta. intros Hwf Hd (Hrun & Hle).
  pose proof (timeoutTick_pos POLL_INTERVAL_MS timeout) as HT.
  destruct (timer s) eqn:Ht.
  - assert (H0 : ticks s = 0).
    { unfold wellFormed in Hwf. rewrite Ht in Hwf. easy. }
    destruct ev as [| |w]; cbn [step].
    + destruct (gate s); cbn; rewrite ?Ht, H0; split; (easy || lia).
    + destruct (gate s); cbn; rewrite ?Ht, H0; split; (easy || lia).
    + destruct (observe_fields w s) as (O1 & _ & O3 & _).
      rewrite O3, Ht, O3, O1, Ht. split; (easy || lia).
  - assert (Hg : gate s = GateFulfilled).
    { unfold wellFormed in Hwf. rewrite Ht in Hwf. easy. }
    specialize (Hrun eq_refl).
    destruct ev as [| |w]; cbn [step].
    + rewrite Hg, Ht. split; (easy || lia).
    + rewrite Hg, Ht. split; (easy || lia).
    + destruct (observe_fields w s) as (O1 & _ & O3 & _).
      rewrite O3, Ht. cbn in Hd.
      set (s1 := observe w s) in *. clearbody s1.
      destruct (closed w) eqn:Hcl.
      * rewrite tick_closed by exact Hcl. cbn. split; [easy | lia].
      * unfold crossOrigin in Hd. cbn in Hd.
        destruct (location_hash w) as [h|] eqn:Hh; [|easy].
        destruct (known h) eqn:Hk.
        -- rewrite (tick_known _ _ _ w h) by easy. cbn. split; [easy | lia].
        -- destruct (ticks_gt (S (ticks s1)) (maxTicksOf POLL_INTERVAL_MS timeout))
             eqn:Hgt.
           ++ rewrite (tick_timeout _ _ _ w h) by easy. cbn. split; [easy | lia].
           ++ rewrite (tick_idle _ _ _ w h) by easy. cbn.
              apply not_true_iff_false in Hgt.
              rewrite timeoutTick_first in Hgt by lia. split; lia.
  - rewrite step_cleared by easy. rewrite Ht. split; [easy | exact Hle].
Qed.

End Budgets.

(** ** Timeouts compared *)

Section Timeouts.

Variable POLL_INTERVAL_MS : Q.
Variable DEFAULT_POPUP_TIMEOUT_MS : Q.
Variable known : string -> bool.

Local Abbreviation monitor :=
  (monitorPopupForHash POLL_INTERVAL_MS DEFAULT_POPUP_TIMEOUT_MS known).

(** X6. With a timeout below the poll interval (zero and negative timeouts
    among them) there is no tick within the budget: the first tick that reads
    a hash without known properties rejects with the timeout error. *)
Theorem short_timeout_first_tick (popupWindow : Window) (timeout : Q)
    (w : Surface) (later : list Event) :
  (0 < POLL_INTERVAL_MS)%Q -> (timeout < POLL_INTERVAL_MS)%Q ->
  idle known w = true ->
  let s := monitor popupWindow timeout (GateResolves :: PollElapsed w :: later) in
  promise s = Rejected MonitorPopupTimeoutError /\ ticks s = 1 /\
  timer s = TimerCleared.
Proof.
  intros Hp Hlt Hw. cbn zeta.
  destruct (monitor_idle POLL_INTERVAL_MS DEFAULT_POPUP_TIMEOUT_MS known
              popupWindow timeout [w]) as (_ & Hge); [now repeat constructor|].
  cbn zeta in Hge. rewrite (timeoutTick_short _ _ Hp Hlt) in Hge.
  destruct (Hge (le_n 1)) as (H1 & H2 & H3 & _).
  change (GateResolves :: PollElapsed w :: later)
    with ((GateResolves :: map PollElapsed [w]) ++ later).
  rewrite monitor_app, run_cleared; [easy | apply monitor_wellFormed | exact H2].
Qed.

(** X7. Raising the timeout changes a session only by sparing it a timeout:
    under the same events the session with the larger timeout is in the same
    state as the one with the smaller, unless the smaller one has timed out.
    So a resolved or cancelled session stays so under a larger timeout, and a
    session that times out under the larger timeout times out under the
    smaller too. *)
Theorem larger_timeout_only_spares (popupWindow : Window) (t1 t2 : Q)
    (evs : list Event) :
  (0 < POLL_INTERVAL_MS)%Q -> (t1 <= t2)%Q ->
  let s1 := monitor popupWindow t1 evs in
  let s2 := monitor popupWindow t2 evs in
  (sameState s1 s2 \/ promise s1 = Rejected MonitorPopupTimeoutError) /\
  (promise s2 = Rejected MonitorPopupTimeoutError ->
   promise s1 = Rejected MonitorPopupTimeoutError) /\
  (forall h, promise s1 = Fulfilled h -> promise s2 = Fulfilled h) /\
  (promise s1 = Rejected UserCancelledError ->
   promise s2 = Rejected UserCancelledError).
Proof.
  intros Hp Hle. cbn zeta.
  assert (Hrel : sameState (monitor popupWindow t1 evs) (monitor popupWindow t2 evs) \/
                 promise (monitor popupWindow t1 evs) = Rejected MonitorPopupTimeoutError).
  { unfold monitorPopupForHash.
    apply (run_budgets known popupWindow).
    - now apply maxTicksOf_mono.
    - apply executor_wellFormed.
    - left. unfold executor. now destruct (negb _), (negb _). }
  split; [exact Hrel|].
  destruct Hrel as [(_ & _ & _ & Hpr & _) | Hto].
  - rewrite <- Hpr. repeat split; easy.
  - rewrite Hto. repeat split; easy.
Qed.

(** X8. When every poll finds the popup closed or its hash readable, the
    counter never goes more than one above the budget: it is at most
    [max 1 (floor (timeout / POLL_INTERVAL_MS) + 1)]. *)
Theorem ticks_at_most_budget_plus_one (popupWindow : Window) (timeout : Q)
    (evs : list Event) :
  (0 < POLL_INTERVAL_MS)%Q ->
  Forall (fun ev => decisive ev = true) evs ->
  (Z.of_nat (ticks (monitor popupWindow timeout evs))
   <= Z.max 1 (Qfloor (timeout / POLL_INTERVAL_MS) + 1))%Z.
Proof.
  intros _ Hevs.
  assert (Hinv : forall l s,
    Forall (fun ev => decisive ev = true) l -> wellFormed s ->
    (timer s = TimerActive -> ticks s < timeoutTick POLL_INTERVAL_MS timeout) /\
    ticks s <= timeoutTick POLL_INTERVAL_MS timeout ->
    ticks (fold_left (step known popupWindow (maxTicksOf POLL_INTERVAL_MS timeout)) l s)
    <= timeoutTick POLL_INTERVAL_MS timeout).
  { induction l as [|ev l IH]; intros s Hl Hwf Hb; cbn [fold_left]; [easy|].
    inversion Hl; subst.
    apply IH; [easy | now apply step_wellFormed|].
    now apply step_ticks_bound. }
  specialize (Hinv evs (executor DEFAULT_POPUP_TIMEOUT_MS timeout) Hevs
                (executor_wellFormed DEFAULT_POPUP_TIMEOUT_MS timeout)).
  destruct (executor_fields DEFAULT_POPUP_TIMEOUT_MS timeout) as (E1 & _ & E3 & _).
  unfold monitorPopupForHash.
  unfold timeoutTick in Hinv at 3.
  pose proof (timeoutTick_pos POLL_INTERVAL_MS timeout).
  rewrite E1, E3 in Hinv.
  assert (Hb : ticks (fold_left (step known popupWindow
                 (maxTicksOf POLL_INTERVAL_MS timeout)) evs
                 (executor DEFAULT_POPUP_TIMEOUT_MS timeout))
               <= Z.to_nat (Z.max 1 (Qfloor (timeout / POLL_INTERVAL_MS) + 1))).
  { apply Hinv. split; [easy | lia]. }
  lia.
Qed.

End Timeouts.

(** * Further properties of the launcher *)

Section LauncherFurther.

Variable isEmpty : string -> bool.
Variable generateCacheKey : string -> string.
Variable INTERACTION_STATUS_KEY : string.
Variable INTERACTION_IN_PROGRESS_VALUE : string.

Local Abbreviation initiate :=
  (initiateAuthRequest isEmpty generateCacheKey INTERACTION_STATUS_KEY
                       INTERACTION_IN_PROGRESS_VALUE).
Local Abbreviation status :=
  (interactionStatus generateCacheKey INTERACTION_STATUS_KEY).

(** One call: what it adds to the history and to the flag. *)
Lemma initiate_once (requestUrl : string) (params : PopupParams) (b : Browser) :
  let b' := fst (initiate requestUrl params b) in
  history b' =
    history b ++
    (if isEmpty requestUrl then [LogError "Navigate url is empty"]
     else [SetTemporaryCache INTERACTION_STATUS_KEY INTERACTION_IN_PROGRESS_VALUE true;
           InfoPii ("Navigate to:" ++ requestUrl);
           OpenPopup requestUrl (popupName params) (popup params)]) /\
  status b' =
    (if isEmpty requestUrl then status b else Some INTERACTION_IN_PROGRESS_VALUE).
Proof.
  cbn zeta. unfold initiateAuthRequest, interactionStatus.
  destruct (isEmpty requestUrl); cbn.
  - easy.
  - destruct (popup params); cbn; now rewrite lookup_insert_eq, <- !app_assoc.
Qed.

(** X9. Over any sequence of calls, [initiateAuthRequest] sets the flag and
    opens a popup once for each url that is not empty and logs one error for
    each empty one; the flag ends in progress as soon as one url was not
    empty and is otherwise left as it was. *)
Theorem launchAll_calls (requests : list (string * PopupParams)) (b : Browser) :
  let b' := launchAll isEmpty generateCacheKey INTERACTION_STATUS_KEY
              INTERACTION_IN_PROGRESS_VALUE requests b in
  let launched := List.filter (fun rq => negb (isEmpty (fst rq))) requests in
  let refused := List.filter (fun rq => isEmpty (fst rq)) requests in
  length (List.filter isOpenPopup (history b')) =
    length (List.filter isOpenPopup (history b)) + length launched /\
  length (List.filter isSetTemporaryCache (history b')) =
    length (List.filter isSetTemporaryCache (history b)) + length launched /\
  length (List.filter isLogError (history b')) =
    length (List.filter isLogError (history b)) + length refused /\
  status b' =
    (if existsb (fun rq => negb (isEmpty (fst rq))) requests
     then Some INTERACTION_IN_PROGRESS_VALUE else status b).
Proof.
  cbn zeta. unfold launchAll. revert b.
  induction requests as [|[url params] requests IH]; intros b; cbn [fold_left].
  - cbn. repeat split; lia.
  - destruct (initiate_once url params b) as (Hh & Hs). cbn zeta in *.
    destruct (IH (fst (initiate url params b))) as (I1 & I2 & I3 & I4).
    cbn [fst snd] in *.
    rewrite I1, I2, I3, I4, Hh, Hs, !List.filter_app, !length_app. cbn.
    destruct (isEmpty url); cbn; repeat split; try lia.
    now destruct (existsb _ requests).
Qed.

End LauncherFurther.

(** * The counter and the reads *)

Section Counter.

Variable POLL_INTERVAL_MS : Q.
Variable DEFAULT_POPUP_TIMEOUT_MS : Q.
Variable known : string -> bool.

Local Abbreviation monitor :=
  (monitorPopupForHash POLL_INTERVAL_MS DEFAULT_POPUP_TIMEOUT_MS known).

(** Hash reads in the trace, and an upper bound on the counter. *)
Local Abbreviation reads s := (length (List.filter isReadHash (trace s))).

Lemma step_counter (popupWindow : Window) (maxTicks : Q) (s : Session) (ev : Event) :
  let s' := step known popupWindow maxTicks s ev in
  reads s' + ticks s = reads s + ticks s' /\
  ticks s' <= ticks s + (if isPoll ev then 1 else 0).
Proof.
  cbn zeta. destruct ev as [| |w]; cbn [step isPoll].
  - destruct (gate s); cbn; rewrite ?List.filter_app, ?length_app; cbn; lia.
  - destruct (gate s); cbn; lia.
  - destruct (observe_fields w s) as (O1 & _ & O3 & _ & _ & O6 & _).
    destruct (timer (observe w s)); [rewrite O1, O6; lia | | rewrite O1, O6; lia].
    rewrite <- O1, <- O6. set (s1 := observe w s). clearbody s1.
    destruct (closed w) eqn:Hcl.
    + rewrite tick_closed by exact Hcl. cbn.
      rewrite List.filter_app, length_app. cbn. lia.
    + destruct (location_hash w) as [h|] eqn:Hh.
      * destruct (known h) eqn:Hk.
        -- rewrite (tick_known _ _ _ w h) by easy. cbn.
           rewrite List.filter_app, length_app. cbn. lia.
        -- destruct (ticks_gt (S (ticks s1)) maxTicks) eqn:Hgt.
           ++ rewrite (tick_timeout _ _ _ w h) by easy. cbn.
              rewrite List.filter_app, length_app. cbn. lia.
           ++ rewrite (tick_idle _ _ _ w h) by easy. cbn.
              rewrite List.filter_app, length_app. cbn. lia.
      * rewrite tick_throws by easy. cbn.
        rewrite List.filter_app, length_app. cbn. lia.
Qed.

(** X10. The counter counts the reads of the hash: in every session [ticks]
    is the number of times [location.hash] was read, and it is at most the
    number of polls that have gone by. *)
Theorem ticks_count_hash_reads (popupWindow : Window) (timeout : Q)
    (evs : list Event) :
  let s := monitor popupWindow timeout evs in
  length (List.filter isReadHash (trace s)) = ticks s /\
  ticks s <= length (List.filter isPoll evs).
Proof.
  cbn zeta. unfold monitorPopupForHash.
  assert (Hgen : forall l s,
    let r := fold_left (step known popupWindow (maxTicksOf POLL_INTERVAL_MS timeout)) l s in
    reads r + ticks s = reads s + ticks r /\
    ticks r <= ticks s + length (List.filter isPoll l)).
  { induction l as [|ev l IH]; intros s; cbn [fold_left]; [cbn; lia|].
    cbn zeta in *.
    destruct (step_counter popupWindow (maxTicksOf POLL_INTERVAL_MS timeout) s ev)
      as (S1 & S2).
    destruct (IH (step known popupWindow (maxTicksOf POLL_INTERVAL_MS timeout) s ev))
      as (I1 & I2).
    cbn [List.filter]. destruct (isPoll ev); cbn [length]; lia. }
  destruct (Hgen evs (executor DEFAULT_POPUP_TIMEOUT_MS timeout)) as (G1 & G2).
  destruct (executor_fields DEFAULT_POPUP_TIMEOUT_MS timeout)
    as (E1 & _ & _ & _ & _ & _ & E7).
  assert (E0 : reads (executor DEFAULT_POPUP_TIMEOUT_MS timeout) = 0).
  { revert E7. generalize (trace (executor DEFAULT_POPUP_TIMEOUT_MS timeout)).
    intros tr E7. induction E7 as [|e tr -> _ IHt]; cbn; easy. }
  cbn zeta in *. lia.
Qed.

End Counter.

(** ** Examples for the further properties *)

Lemma cross_origin_ticks_count_witness :
  let s := monitorPopupForHash 2000 60000 knownCode 0 6000
             ([GateResolves; PollElapsed loading] ++
              map PollElapsed [elsewhere; elsewhere; elsewhere; elsewhere; elsewhere]) in
  ticks s = 6 /\ timer s = TimerActive /\ promise s = Pending.
Proof.
  destruct (cross_origin_ticks_count 2000 60000 knownCode 0 6000
              [GateResolves; PollElapsed loading]
              [elsewhere; elsewhere; elsewhere; elsewhere; elsewhere])
    as (H1 & H2 & H3 & _).
  - reflexivity.
  - repeat (constructor; try reflexivity).
  - exact (conj H1 (conj H2 H3)).
Defined.

Lemma known_hash_beats_timeout_witness :
  let s := monitorPopupForHash 2000 60000 knownCode 0 6000
             (GateResolves ::
              map PollElapsed ([loading; loading; loading] ++ [redirected]) ++ []) in
  promise s = Fulfilled "#code=abc" /\ ticks s = 4 /\
  ticks_gt (ticks s) (maxTicksOf 2000 6000) = true.
Proof.
  apply (known_hash_beats_timeout 2000 60000 knownCode 0 6000
           [loading; loading; loading] redirected "#code=abc" []);
    try reflexivity.
  - repeat (constructor; try reflexivity).
  - now right.
Defined.

Lemma short_timeout_first_tick_witness :
  let s := monitorPopupForHash 2000 60000 knownCode 0 0
             [GateResolves; PollElapsed loading; PollElapsed redirected] in
  promise s = Rejected MonitorPopupTimeoutError /\ ticks s = 1 /\
  timer s = TimerCleared.
Proof.
  apply (short_timeout_first_tick 2000 60000 knownCode 0 0 loading
           [PollElapsed redirected]); reflexivity.
Defined.

Lemma larger_timeout_only_spares_witness :
  promise (monitorPopupForHash 2000 60000 knownCode 0 6000
             [GateResolves; PollElapsed loading; PollElapsed redirected])
  = Fulfilled "#code=abc".
Proof.
  apply (larger_timeout_only_spares 2000 60000 knownCode 0 4000 6000
           [GateResolves; PollElapsed loading; PollElapsed redirected]);
    try reflexivity.
  discriminate.
Defined.

Lemma ticks_at_most_budget_plus_one_witness :
  (Z.of_nat (ticks (monitorPopupForHash 2000 60000 knownCode 0%nat 6000
                      [GateResolves; PollElapsed loading; PollElapsed loading;
                       PollElapsed loading; PollElapsed loading;
                       PollElapsed loading; PollElapsed gone]))
   <= Z.max 1 (Qfloor (6000 / 2000) + 1))%Z.
Proof.
  apply (ticks_at_most_budget_plus_one 2000 60000 knownCode 0 6000).
  - reflexivity.
  - repeat (constructor; try reflexivity).
Defined.

(** * Where the code departs from its comment

    Line 75 reads "Only run clock when we are on same domain", but
    [ticks++] comes before the read of [location.hash], and that read
    throws when the popup has gone to another origin after the gate has
    resolved: the tick is counted and the budget test is not reached. The
    three lemmas below run the code on such surfaces, with an interval of
    2000 and a timeout of 6000, a budget of 3 ticks. In each the first poll
    finds the popup on the caller's origin and resolves the gate. *)

(** C1, at an input where the code departs from it: polls that pass while
    the popup is on another origin are counted against the budget once the
    gate has resolved. The popup is seen on the caller's origin on two ticks
    only, the first and the fifth, and is away on ticks 2 to 4; the counter
    is 5 and the promise is rejected with the timeout error on the fifth
    tick. Without the three polls on the other origin the same surface is
    pending with 2 ticks. *)
Theorem monitorPopupForHash_counts_cross_origin_ticks :
  let away := [loading; loading; elsewhere; elsewhere; elsewhere; loading] in
  let home := [loading; loading; loading] in
  let s := monitorSurface 2000 60000 knownCode 0 6000 away in
  let s' := monitorSurface 2000 60000 knownCode 0 6000 home in
  List.filter (fun w => negb (crossOrigin w)) away = home /\
  ticks s = 5 /\ promise s = Rejected MonitorPopupTimeoutError /\
  ticks s' = 2 /\ promise s' = Pending /\
  ticks_gt 2 (maxTicksOf 2000 6000) = false.
Proof. now vm_compute. Qed.

(** C2, at an input where the code departs from it: the session sees
    neither a closed popup nor a known hash, and the first tick whose count
    is above [floor (6000 / 2000) = 3] is tick 4; on that tick the popup is
    on another origin, the read throws and the promise stays pending. The
    rejection comes one tick later, on tick 5. *)
Theorem monitorPopupForHash_late_timeout :
  let upTo4 := [loading; loading; loading; loading; elsewhere] in
  let s4 := monitorSurface 2000 60000 knownCode 0%nat 6000 upTo4 in
  let s5 := monitorSurface 2000 60000 knownCode 0%nat 6000 (upTo4 ++ [loading]) in
  Qfloor (6000 / 2000) = 3%Z /\
  Forall (fun w => closed w = false /\ recognized knownCode w = false)
         (upTo4 ++ [loading]) /\
  ticks s4 = 4 /\ promise s4 = Pending /\ timer s4 = TimerActive /\
  ticks s5 = 5 /\ promise s5 = Rejected MonitorPopupTimeoutError.
Proof.
  vm_compute. repeat split; try reflexivity.
  repeat (constructor; try (split; reflexivity)).
Qed.

(** C5, at an input where the code departs from it: the popup stays open
    and never shows a known hash, being on another origin from the second
    poll on. The counter goes above the budget, to 8 for a budget of 3, and
    the promise is not rejected: it is pending, the interval runs, and no
    cleanup was called. *)
Theorem monitorPopupForHash_no_timeout_above_budget :
  let ws := [loading; elsewhere; elsewhere; elsewhere; elsewhere;
             elsewhere; elsewhere; elsewhere; elsewhere] in
  let s := monitorSurface 2000 60000 knownCode 0 6000 ws in
  Forall (fun w => closed w = false /\ recognized knownCode w = false) ws /\
  ticks s = 8 /\ ticks_gt (ticks s) (maxTicksOf 2000 6000) = true /\
  promise s = Pending /\ timer s = TimerActive /\
  List.filter isCleanPopup (trace s) = [].
Proof.
  vm_compute. repeat split; try reflexivity.
  repeat (constructor; try (split; reflexivity)).
Qed.
